(** * RagChat: the chat session controller of [src/components/RagChat.tsx]

    A shallow embedding of the React component's state and of its one
    asynchronous handler, [sendMessage], followed by the properties the
    specification states about them.

    Modelling conventions.
    - A JavaScript string is its sequence of UTF-16 code units.
    - The component state is the record of the four [useState] cells.
    - A handler does not write the state directly: it issues [set...]
      calls, which React queues and applies in order.  A handler is
      therefore embedded as the list of [Action]s it issues, and the
      session state after the handler is that list applied in order.
    - A handler reads the cells through its closure.  The embedding hands
      it their current values: the component has rendered, and so renewed
      its closures, since the last update.
    - [sendMessage] is an [async] function: it runs up to an [await],
      suspends, and resumes when the awaited promise settles.  A suspended
      call is a [Task] (the program point plus the live local variables),
      and the session keeps the pool of suspended calls. *)

From Stdlib Require Import NArith Ascii String.
From Stdlib.Strings Require Import Byte.
From stdpp Require Import base option list.

Local Open Scope N_scope.
Local Open Scope nat_scope.

(** ** JavaScript strings *)

Definition codeunit := N.
Definition jsstring := list codeunit.

(** A string literal of the source (all of them are ASCII). *)
Definition lit (s : string) : jsstring :=
  map N_of_ascii (list_ascii_of_string s).

(** Truthiness of a string value: every string but the empty one. *)
Definition truthy (s : jsstring) : bool :=
  match s with
  | [] => false
  | _ :: _ => true
  end.

(** ECMAScript [WhiteSpace] and [LineTerminator] code points, the ones
    [String.prototype.trim] strips.  All lie in the basic plane, so the
    test is on single code units. *)
Definition isWhiteSpace (c : codeunit) : bool :=
  ((c =? 0x0009) || (c =? 0x000B) || (c =? 0x000C) || (c =? 0x0020)
   || (c =? 0x00A0) || (c =? 0xFEFF) || (c =? 0x1680)
   || ((0x2000 <=? c) && (c <=? 0x200A))
   || (c =? 0x202F) || (c =? 0x205F) || (c =? 0x3000)
   || (c =? 0x000A) || (c =? 0x000D) || (c =? 0x2028) || (c =? 0x2029))%N.

Fixpoint trimStart (s : jsstring) : jsstring :=
  match s with
  | [] => []
  | c :: s' => if isWhiteSpace c then trimStart s' else s
  end.

Definition trimEnd (s : jsstring) : jsstring :=
  rev (trimStart (rev s)).

(** [s.trim()] *)
Definition trim (s : jsstring) : jsstring :=
  trimEnd (trimStart s).

Fixpoint startsWith (s p : jsstring) : bool :=
  match p, s with
  | [], _ => true
  | _ :: _, [] => false
  | a :: p', b :: s' => (a =? b)%N && startsWith s' p'
  end.

(** [s.includes(p)] *)
Fixpoint includes (s p : jsstring) : bool :=
  startsWith s p ||
  match s with
  | [] => false
  | _ :: s' => includes s' p
  end.

(** [s?.includes(p)] used as a condition: [undefined], hence falsy, when
    [s] is [null]. *)
Definition opt_includes (s : option jsstring) (p : jsstring) : bool :=
  match s with
  | None => false
  | Some s => includes s p
  end.

(** ** Data model *)

Inductive Sender := user | bot.

Record Message := mkMessage { sender : Sender; text : jsstring }.

(** The four [useState] cells of the component. *)
Record State := mkState {
  messages : list Message;
  input : jsstring;
  loading : bool;
  isStreaming : bool
}.

Definition initialState : State :=
  {| messages := []; input := []; loading := false; isStreaming := false |}.

(** ** The platform interfaces the handler talks to *)

(** What the handler reads off the [Response] of [fetch]. *)
Record Response := mkResponse {
  status : N;
  contentType : option jsstring;   (* res.headers.get("content-type") *)
  hasBody : bool                   (* res.body is not null *)
}.

(** [res.ok]: the status is in the range 200-299. *)
Definition ok (res : Response) : bool :=
  ((200 <=? status res) && (status res <=? 299))%N.

(** The value of [await res.json()], within the HTTP contract: an object
    whose [answer] field, when present, is a string; [None] is the absent
    field ([data.answer] is [undefined]).  The source takes the value as
    [any]; [Json] and [as_contract] below say which parsed bodies this
    record stands for and which it leaves out. *)
Record JsonData := mkJsonData { answer : option jsstring }.

(** A number as [JSON.parse] yields it: a double that is not NaN. *)
Inductive Double :=
| Zero (negative : bool)
| Finite (negative : bool) (mantissa : positive) (exponent : Z)
| Infinite (negative : bool).

Local Unset Elimination Schemes.

(** A parsed JSON value: what [res.json()] can resolve to. *)
Inductive Json :=
| JNull
| JBool (b : bool)
| JNumber (d : Double)
| JString (s : jsstring)
| JArray (items : list Json)
| JObject (members : list (jsstring * Json)).

Local Set Elimination Schemes.

(** ToBoolean, which [||] applies to its left operand. *)
Definition to_boolean (v : Json) : bool :=
  match v with
  | JNull => false
  | JBool b => b
  | JNumber (Zero _) => false
  | JNumber _ => true
  | JString s => truthy s
  | JArray _ | JObject _ => true
  end.

(** The member of an object under a key; of two members with one key the
    later one counts, as in [JSON.parse]. *)
Fixpoint member (k : jsstring) (members : list (jsstring * Json))
  : option Json :=
  match members with
  | [] => None
  | (k', v) :: members =>
      match member k members with
      | Some w => Some w
      | None => if decide (k' = k) then Some v else None
      end
  end.

(** [data.answer].  [None]: the access throws a TypeError ([data] is
    [null]).  [Some None]: it gives [undefined] (an object without the
    member, or a boolean, number, string or array, none of which has a
    property of that name). *)
Definition get_answer (data : Json) : option (option Json) :=
  match data with
  | JNull => None
  | JObject members => Some (member (lit "answer") members)
  | _ => Some None
  end.

(** The [JsonData] a parsed body stands for in [data.answer || d], when
    the result is a string.  An answer that is [null], [false] or zero
    makes [||] take [d], as the absent field does.  Left out ([None]):
    the body [null], where the updater of lines 91-100 throws when React
    runs it, and an answer that is truthy and not a string (a number other
    than zero, [true], an array, an object), which the updater would
    store as the text. *)
Definition as_contract (data : Json) : option JsonData :=
  match get_answer data with
  | None => None
  | Some None => Some {| answer := None |}
  | Some (Some (JString s)) => Some {| answer := Some s |}
  | Some (Some v) =>
      if to_boolean v then None else Some {| answer := None |}
  end.

(** The object handed to [JSON.stringify] for the request body. *)
Record RequestBody := mkRequestBody { query : jsstring }.

Record Request := mkRequest {
  url : jsstring;
  method : jsstring;
  headers : list (jsstring * jsstring);
  body : RequestBody
}.

(** [new TextDecoder()] and [decoder.decode(value, { stream: true })].
    The decoder is a platform object with internal state (the bytes of an
    incomplete sequence are held back until the next call). *)
Class TextDecoder (D : Type) := {
  newTextDecoder : D;
  decode : D -> list byte -> D * jsstring
}.

(** A decoder for 7-bit input, on which it agrees with UTF-8 decoding:
    a byte below 0x80 is the code unit of the same value.  A byte from
    0x80 on is answered with U+FFFD (UTF-8 decoding does that only for
    bytes outside a well-formed sequence).  It serves the examples. *)
Definition ascii_decode (value : list byte) : jsstring :=
  map (fun b => let n := Byte.to_N b in if (n <? 0x80)%N then n else 0xFFFD%N)
      value.

#[export] Instance ascii_decoder : TextDecoder unit :=
  {| newTextDecoder := tt; decode := fun d value => (d, ascii_decode value) |}.

(** The bytes of an ASCII literal, for examples. *)
Definition bytes_of (s : string) : list byte := list_byte_of_string s.

(** The values the handler throws or catches. *)
Inductive Error :=
| HttpError (status : N)          (* line 48 *)
| NoReader                        (* line 60 *)
| UnexpectedContentType           (* line 103 *)
| Rejection.                      (* an awaited promise rejected *)

(** The calls a handler issues, in program order. *)
Inductive Action :=
| setMessages (f : list Message -> list Message)
| setInput (s : jsstring)
| setLoading (b : bool)
| setIsStreaming (b : bool)
| fetch (req : Request)
| console_error (err : Error).

(** The two updater functions passed to [setMessages]. *)

(** [(prev) => [...prev, m]] *)
Definition append (m : Message) (prev : list Message) : list Message :=
  prev ++ [m].

(** [(prev) => { const newMessages = [...prev];
                 if (newMessages.length > 0)
                   newMessages[newMessages.length - 1] = m;
                 return newMessages; }] *)
Definition replaceLast (m : Message) (prev : list Message) : list Message :=
  let newMessages := prev in
  if bool_decide (0 < length newMessages)
  then <[length newMessages - 1 := m]> newMessages
  else newMessages.

Definition fallback : jsstring := lit "No response received.".
Definition apology : jsstring :=
  lit "Sorry, I encountered an error. Please try again.".

(** [v || d] for an optional string [v]: [d] when [v] is [undefined] or
    the empty string. *)
Definition or_else (v : option jsstring) (d : jsstring) : jsstring :=
  match v with
  | Some s => if truthy s then s else d
  | None => d
  end.

(** The request of lines 39-45. *)
Definition rag_request (userQuery : jsstring) : Request :=
  {| url := lit "/api/rag";
     method := lit "POST";
     headers := [(lit "Content-Type", lit "application/json")];
     body := {| query := userQuery |} |}.

(** What [reader.read()] resolves to. *)
Inductive ReadResult :=
| Chunk (value : list byte)       (* { done: false, value } *)
| Done.                           (* { done: true } *)

(** How an awaited promise settles. *)
Inductive Settlement :=
| FetchFulfilled (res : Response)
| ReadFulfilled (r : ReadResult)
| JsonFulfilled (data : JsonData)
| Rejected.

Section Controller.

Context {D : Type} `{!TextDecoder D}.

(** ** The asynchronous handler *)

(** A suspended call of [sendMessage]: the [await] it is parked at and the
    local variables that are live there. *)
Inductive Task :=
| AwaitFetch                                        (* line 39 *)
| AwaitRead (decoder : D) (accumulatedText : jsstring)  (* line 66 *)
| AwaitJson.                                        (* line 90 *)

(** How a stretch of the [try] body between two [await]s ends. *)
Inductive Completion :=
| Await (t : Task)
| Normal
| Throw (err : Error).

(** Lines 105-117. *)
Definition catch_block (err : Error) : list Action :=
  [ console_error err;
    setMessages (replaceLast {| sender := bot; text := apology |});
    setIsStreaming false ].

(** Lines 118-120. *)
Definition finally_block : list Action :=
  [ setLoading false ].

(** [try { ... } catch (err) { ... } finally { ... }] around a stretch of
    the body. *)
Definition try_catch_finally (seg : list Action * Completion)
  : list Action * option Task :=
  match seg with
  | (acts, Await t) => (acts, Some t)
  | (acts, Normal) => (acts ++ finally_block, None)
  | (acts, Throw err) => (acts ++ catch_block err ++ finally_block, None)
  end.

(** Lines 47-63 and 88-90: from the resolution of [fetch] to the next
    [await]. *)
Definition after_fetch (res : Response) : list Action * Completion :=
  if negb (ok res) then ([], Throw (HttpError (status res)))
  else
    let contentType := contentType res in
    if opt_includes contentType (lit "text/plain") then
      if hasBody res
      then ([], Await (AwaitRead newTextDecoder []))
      else ([], Throw NoReader)
    else if opt_includes contentType (lit "application/json") then
      ([], Await AwaitJson)
    else ([], Throw UnexpectedContentType).

(** Lines 66-87: one turn of the [while (true)] loop, from the resolution
    of [reader.read()] to the next one. *)
Definition after_read (decoder : D) (accumulatedText : jsstring)
    (r : ReadResult) : list Action * Completion :=
  match r with
  | Done => ([setIsStreaming false], Normal)
  | Chunk value =>
      let '(decoder, chunk) := decode decoder value in
      let accumulatedText := accumulatedText ++ chunk in
      ([setMessages
          (replaceLast {| sender := bot; text := accumulatedText |})],
       Await (AwaitRead decoder accumulatedText))
  end.

(** Lines 90-101. *)
Definition after_json (data : JsonData) : list Action * Completion :=
  ([setMessages
      (replaceLast {| sender := bot; text := or_else (answer data) fallback |});
    setIsStreaming false],
   Normal).

(** [sendMessage()], lines 25-45: the guard and the synchronous prefix up
    to the first [await].  [input] and [loading] are the values of the
    state cells the closure sees. *)
Definition sendMessage (input : jsstring) (loading : bool)
  : list Action * option Task :=
  if negb (truthy (trim input)) || loading then ([], None)
  else
    let userQuery := trim input in
    let '(acts, t) :=
      try_catch_finally ([fetch (rag_request userQuery)], Await AwaitFetch) in
    ([ setMessages (append {| sender := user; text := userQuery |});
       setInput [];
       setLoading true;
       setIsStreaming true;
       setMessages (append {| sender := bot; text := [] |}) ] ++ acts,
     t).

(** The rest of a suspended call once its promise settles.  [None]: the
    settlement is not one of the promise the call awaits. *)
Definition resume (t : Task) (s : Settlement)
  : option (list Action * option Task) :=
  match t, s with
  | _, Rejected => Some (try_catch_finally ([], Throw Rejection))
  | AwaitFetch, FetchFulfilled res => Some (try_catch_finally (after_fetch res))
  | AwaitRead decoder accumulatedText, ReadFulfilled r =>
      Some (try_catch_finally (after_read decoder accumulatedText r))
  | AwaitJson, JsonFulfilled data => Some (try_catch_finally (after_json data))
  | _, _ => None
  end.

(** ** The session *)

(** The component state, the suspended calls of [sendMessage], and what
    has been sent to the network and to the console so far. *)
Record Config := mkConfig {
  ui : State;
  pending : list Task;
  network : list Request;
  console : list Error
}.

Definition initial : Config :=
  {| ui := initialState; pending := []; network := []; console := [] |}.

Definition perform (a : Action) (c : Config) : Config :=
  let st := ui c in
  match a with
  | setMessages f =>
      {| ui := {| messages := f (messages st); input := input st;
                  loading := loading st; isStreaming := isStreaming st |};
         pending := pending c; network := network c; console := console c |}
  | setInput s =>
      {| ui := {| messages := messages st; input := s;
                  loading := loading st; isStreaming := isStreaming st |};
         pending := pending c; network := network c; console := console c |}
  | setLoading b =>
      {| ui := {| messages := messages st; input := input st;
                  loading := b; isStreaming := isStreaming st |};
         pending := pending c; network := network c; console := console c |}
  | setIsStreaming b =>
      {| ui := {| messages := messages st; input := input st;
                  loading := loading st; isStreaming := b |};
         pending := pending c; network := network c; console := console c |}
  | fetch req =>
      {| ui := st; pending := pending c;
         network := network c ++ [req]; console := console c |}
  | console_error err =>
      {| ui := st; pending := pending c;
         network := network c; console := console c ++ [err] |}
  end.

(** The calls of a handler take effect in the order they were issued. *)
Definition run (acts : list Action) (c : Config) : Config :=
  foldl (fun c a => perform a c) c acts.

(** The configurations passed through while [acts] take effect, the last
    one being [run acts c]. *)
Fixpoint during (acts : list Action) (c : Config) : list Config :=
  match acts with
  | [] => []
  | a :: acts => perform a c :: during acts (perform a c)
  end.

Definition with_pending (p : list Task) (c : Config) : Config :=
  {| ui := ui c; pending := p; network := network c; console := console c |}.

(** What happens to the session. *)
Inductive Event :=
| Typing (s : jsstring)           (* onChange: setInput(e.target.value) *)
| Click                           (* onClick={sendMessage} *)
| Enter                           (* onKeyDown with e.key === "Enter" *)
| Settle (i : nat) (s : Settlement).  (* the promise of call [i] settles *)

(** The actions an event's handler issues in configuration [c], and the
    pool of suspended calls it leaves.  [None]: the event cannot occur. *)
Definition handler (e : Event) (c : Config)
  : option (list Action * list Task) :=
  match e with
  | Typing s => Some ([setInput s], pending c)
  | Click =>
      let '(acts, t) := sendMessage (input (ui c)) (loading (ui c)) in
      Some (acts, pending c ++ option_list t)
  | Enter =>
      if negb (loading (ui c)) && truthy (trim (input (ui c))) then
        let '(acts, t) := sendMessage (input (ui c)) (loading (ui c)) in
        Some (acts, pending c ++ option_list t)
      else Some ([], pending c)
  | Settle i s =>
      t ← pending c !! i;
      '(acts, t') ← resume t s;
      Some (acts,
            match t' with
            | Some t' => <[i := t']> (pending c)
            | None => delete i (pending c)
            end)
  end.

Definition step (e : Event) (c : Config) : option Config :=
  '(acts, p) ← handler e c;
  Some (with_pending p (run acts c)).

Fixpoint steps (es : list Event) (c : Config) : option Config :=
  match es with
  | [] => Some c
  | e :: es => c' ← step e c; steps es c'
  end.

Inductive reachable : Config -> Prop :=
| reachable_initial : reachable initial
| reachable_step e c c' : reachable c -> step e c = Some c' -> reachable c'.

(** ** Vocabulary of the properties *)

(** The input is empty or consists of white space only. *)
Definition blank (s : jsstring) : bool := forallb isWhiteSpace s.

(** The trailing message: the last element of the message sequence. *)
Definition trailing (c : Config) : option Message := last (messages (ui c)).

(** The decoder after it has decoded [chunks], in delivery order. *)
Fixpoint decoder_after (d : D) (chunks : list (list byte)) : D :=
  match chunks with
  | [] => d
  | value :: chunks => decoder_after (fst (decode d value)) chunks
  end.

(** The decoded chunks: what the successive [decode] calls of one decoder
    return for [chunks], in delivery order. *)
Fixpoint decoded (d : D) (chunks : list (list byte)) : list jsstring :=
  match chunks with
  | [] => []
  | value :: chunks =>
      snd (decode d value) :: decoded (fst (decode d value)) chunks
  end.

(** The body of call [i] arrives as [chunks]. *)
Definition delivery (i : nat) (chunks : list (list byte)) : list Event :=
  (fun value => Settle i (ReadFulfilled (Chunk value))) <$> chunks.

(** The guard of [sendMessage] lets the submission through: [loading] is
    off and the input is not blank. *)
Definition accepts (c : Config) : Prop :=
  loading (ui c) = false /\ truthy (trim (input (ui c))) = true.

(** A session at rest that accepts a submission. *)
Definition ready (c : Config) : Prop := pending c = [] /\ accepts c.

(** The ways an exchange fails, by the [await] the call is parked at: the
    awaited promise is rejected (a network or transport failure, at any of
    the three), or [fetch] is answered with a status that is not a success
    status, with a content type that is neither of the two the handler
    knows, or with a streaming content type and no body to read. *)
Inductive failure : Task -> Settlement -> Prop :=
| failure_network t : failure t Rejected
| failure_status res : ok res = false -> failure AwaitFetch (FetchFulfilled res)
| failure_content_type res :
    opt_includes (contentType res) (lit "text/plain") = false ->
    opt_includes (contentType res) (lit "application/json") = false ->
    failure AwaitFetch (FetchFulfilled res)
| failure_no_body res :
    ok res = true ->
    opt_includes (contentType res) (lit "text/plain") = true ->
    hasBody res = false ->
    failure AwaitFetch (FetchFulfilled res).

Definition is_fetch (a : Action) : bool :=
  match a with
  | fetch _ => true
  | _ => false
  end.

(** The condition that holds of every session between two events: either
    nothing is in flight and both flags are off, or exactly one call is
    suspended, both flags are on, and the trailing message is a bot
    message, still empty before the body is read and holding the text
    accumulated so far while it is read. *)
Definition at_rest (c : Config) : Prop :=
  pending c = [] /\ loading (ui c) = false /\ isStreaming (ui c) = false.

Definition holds_text (t : Task) (txt : jsstring) : Prop :=
  match t with
  | AwaitFetch => txt = []
  | AwaitRead _ accumulatedText => txt = accumulatedText
  | AwaitJson => txt = []
  end.

Definition in_flight_after (pre : list Message) (c : Config) : Prop :=
  exists t txt,
    pending c = [t] /\ loading (ui c) = true /\ isStreaming (ui c) = true /\
    messages (ui c) = pre ++ [{| sender := bot; text := txt |}] /\
    holds_text t txt.

Definition consistent (c : Config) : Prop :=
  at_rest c \/ exists pre, in_flight_after pre c.

(** [new] is [old] with at most its last element rewritten. *)
Definition rewrites_last_only (old new : list Message) : Prop :=
  length new = length old /\
  forall i, i < length old - 1 -> new !! i = old !! i.

(** The action sets one of the two flags. *)
Definition sets_flag (a : Action) : bool :=
  match a with
  | setLoading _ | setIsStreaming _ => true
  | _ => false
  end.

(** The action does not touch the messages, or replaces the last one by a
    bot message. *)
Definition tame (a : Action) : Prop :=
  match a with
  | setMessages f =>
      exists txt, f = replaceLast {| sender := bot; text := txt |}
  | _ => True
  end.

(** ** Sample sessions and responses *)

(** The user has typed "  hi " into a fresh session. *)
Definition typed_hi : Config := perform (setInput (lit "  hi ")) initial.

(** The user has typed white space only. *)
Definition typed_blank : Config :=
  perform (setInput [0x20; 0x09; 0xA0]%N) initial.

Definition plain_200 : Response :=
  {| status := 200; contentType := Some (lit "text/plain; charset=utf-8");
     hasBody := true |}.

Definition json_200 : Response :=
  {| status := 200; contentType := Some (lit "application/json");
     hasBody := true |}.

(** Two [Content-Type] header lines, joined by [headers.get]. *)
Definition both_200 : Response :=
  {| status := 200; contentType := Some (lit "application/json, text/plain");
     hasBody := true |}.

Definition html_200 : Response :=
  {| status := 200; contentType := Some (lit "text/html"); hasBody := true |}.

Definition error_500 : Response :=
  {| status := 500; contentType := Some (lit "text/plain"); hasBody := true |}.

Definition hel_lo : list (list byte) := [bytes_of "Hel"; bytes_of "lo"].

(** "  hi " is typed and submitted, a streaming response arrives and its
    first chunk, "Hel", has been read. *)
Definition hi_then_hel : list Event :=
  [ Typing (lit "  hi "); Click; Settle 0 (FetchFulfilled plain_200);
    Settle 0 (ReadFulfilled (Chunk (bytes_of "Hel"))) ].

(** ** The view (lines 123-183) *)

(** What a bubble shows: [msg.text || (isStreaming && i === last && dots)]. *)
Inductive Content :=
| Text (s : jsstring)             (* the text, when it is not empty *)
| TypingIndicator                 (* the three bouncing dots *)
| Nothing.                        (* [false]: nothing is rendered *)

(** One [div] of [messages.map]: its key, which of the two class strings
    it gets ([msg.sender === "user"] or not), and what it shows.  The last
    index is [messages.length - 1]; a bubble exists only when there is a
    message, so the subtraction never goes below zero. *)
Record Bubble := mkBubble { key : nat; side : Sender; content : Content }.

Definition bubble (st : State) (i : nat) (msg : Message) : Bubble :=
  {| key := i;
     side := match sender msg with user => user | bot => bot end;
     content :=
       if truthy (text msg) then Text (text msg)
       else if isStreaming st && (i =? length (messages st) - 1)
            then TypingIndicator
            else Nothing |}.

Record View := mkView {
  placeholder : bool;               (* the "Ask me anything" paragraph *)
  bubbles : list Bubble;
  input_value : jsstring;
  input_disabled : bool;
  button_disabled : bool;
  button_label : jsstring
}.

(** The JSX the component returns, as a function of the state cells. *)
Definition render (st : State) : View :=
  {| placeholder := (length (messages st) =? 0);
     bubbles := imap (bubble st) (messages st);
     input_value := input st;
     input_disabled := loading st;
     button_disabled := loading st || negb (truthy (trim (input st)));
     button_label := if loading st then lit "..." else lit "Send" |}.

(** The events the rendered page lets through: a disabled control
    dispatches no event, a promise settles when it settles. *)
Definition offered (st : State) (e : Event) : bool :=
  match e with
  | Typing _ | Enter => negb (input_disabled (render st))
  | Click => negb (button_disabled (render st))
  | Settle _ _ => true
  end.

(** The sessions reached through the page. *)
Inductive ui_reachable : Config -> Prop :=
| ui_reachable_initial : ui_reachable initial
| ui_reachable_step e c c' :
    ui_reachable c -> offered (ui c) e = true -> step e c = Some c' ->
    ui_reachable c'.

(** ** The scroll effect (lines 18-23) *)

Definition is_setMessages (a : Action) : bool :=
  match a with
  | setMessages _ => true
  | _ => false
  end.

(** [useEffect(..., [messages])] runs after a render in which [messages]
    is another array than before.  Both updaters build a new array
    ([[...prev, m]] and [[...prev]]), so that is the render after any
    handler that called [setMessages]; the other setters leave the array
    alone. *)
Definition scrolls (e : Event) (c : Config) : bool :=
  match handler e c with
  | Some (acts, _) => existsb is_setMessages acts
  | None => false
  end.

(** ** Vocabulary of the further properties *)

(** The message list of a session that has sent the requests [net]: for
    each request, in order, the user message with its query and one bot
    message. *)
Inductive transcript : list Request -> list Message -> Prop :=
| transcript_nil : transcript [] []
| transcript_snoc net ms req reply :
    transcript net ms ->
    transcript (net ++ [req])
               (ms ++ [ {| sender := user; text := query (body req) |};
                        {| sender := bot; text := reply |} ]).

(** The messages that are final: all of them at rest, all but the last
    while an exchange is going on. *)
Definition settled (st : State) : list Message :=
  if loading st then take (length (messages st) - 1) (messages st)
  else messages st.

(** What [decode] with [stream: true] is for: decoding a sequence of
    bytes piece by piece gives the text, and leaves the decoder in the
    state, that decoding it at once does. *)
Definition streams : Prop :=
  (forall d, decode d [] = (d, [])) /\
  (forall d a b,
      decode d (a ++ b) =
      (fst (decode (fst (decode d a)) b),
       snd (decode d a) ++ snd (decode (fst (decode d a)) b))).

(** ** Facts about strings *)

Lemma trimStart_split (s : jsstring) :
  exists l, s = l ++ trimStart s /\ blank l = true.
Proof.
  induction s as [|c s [l [Hs Hl]]]; simpl.
  - by exists [].
  - destruct (isWhiteSpace c) eqn:Hc.
    + exists (c :: l). simpl. rewrite Hc, Hl. split; [by f_equal | done].
    + by exists [].
Qed.

Lemma trimStart_head (s : jsstring) c s' :
  trimStart s = c :: s' -> isWhiteSpace c = false.
Proof.
  induction s as [|a s IH]; simpl; [done |].
  destruct (isWhiteSpace a) eqn:Ha; [done |].
  intros [= -> _]. done.
Qed.

Lemma blank_app (s1 s2 : jsstring) :
  blank (s1 ++ s2) = blank s1 && blank s2.
Proof. apply forallb_app. Qed.

Lemma blank_rev (s : jsstring) : blank (rev s) = blank s.
Proof.
  induction s as [|c s IH]; simpl; [done |].
  rewrite blank_app, IH. simpl. rewrite andb_true_r. apply andb_comm.
Qed.

Lemma trimEnd_split (s : jsstring) :
  exists r, s = trimEnd s ++ r /\ blank r = true.
Proof.
  unfold trimEnd. destruct (trimStart_split (rev s)) as [l [Hs Hl]].
  exists (rev l). split; [| by rewrite blank_rev].
  rewrite <- rev_app_distr, <- Hs. by rewrite rev_involutive.
Qed.

Lemma trimEnd_last (s : jsstring) c :
  last (trimEnd s) = Some c -> isWhiteSpace c = false.
Proof.
  unfold trimEnd. destruct (trimStart (rev s)) as [|a s'] eqn:E; [done |].
  simpl. rewrite last_snoc. intros [= <-]. by eapply trimStart_head.
Qed.

Lemma trimEnd_head (s : jsstring) c :
  head s = Some c -> isWhiteSpace c = false -> head (trimEnd s) = Some c.
Proof.
  destruct s as [|a s]; [done |]. simpl. intros [= ->] Hc.
  destruct (trimEnd_split (c :: s)) as [r [Hs Hr]].
  destruct (trimEnd (c :: s)) as [|b t]; simpl in *.
  - subst r. simpl in Hr. by rewrite Hc in Hr.
  - by injection Hs as -> _.
Qed.

(** [trim] removes a blank prefix and a blank suffix and nothing else, and
    what is left neither starts nor ends with white space. *)
Lemma trim_spec (s : jsstring) :
  exists l r,
    s = l ++ trim s ++ r /\ blank l = true /\ blank r = true /\
    (forall c, head (trim s) = Some c -> isWhiteSpace c = false) /\
    (forall c, last (trim s) = Some c -> isWhiteSpace c = false).
Proof.
  destruct (trimStart_split s) as [l [Hs Hl]].
  destruct (trimEnd_split (trimStart s)) as [r [Ht Hr]].
  exists l, r. unfold trim. split; [by rewrite <- Ht |].
  split; [done |]. split; [done |]. split.
  - intros c Hc. destruct (trimStart s) as [|a s'] eqn:E; [done |].
    pose proof (trimStart_head _ _ _ E) as Ha.
    rewrite (trimEnd_head (a :: s') a eq_refl Ha) in Hc.
    by injection Hc as <-.
  - apply trimEnd_last.
Qed.

(** The trimmed input is empty exactly when the input is blank. *)
Lemma trim_blank (s : jsstring) : truthy (trim s) = false <-> blank s = true.
Proof.
  destruct (trim_spec s) as (l & r & Hs & Hl & Hr & Hh & _).
  split.
  - destruct (trim s) as [|c t] eqn:E; [| done]. intros _.
    rewrite Hs. simpl. by rewrite blank_app, Hl, Hr.
  - intros Hb. destruct (trim s) as [|c t] eqn:E; [done |].
    rewrite Hs in Hb. rewrite !blank_app in Hb. simpl in Hb.
    rewrite (Hh c eq_refl) in Hb. simpl in Hb.
    by rewrite andb_false_r in Hb.
Qed.

(** ** Facts about the updaters *)

Lemma replaceLast_snoc m pre x : replaceLast m (pre ++ [x]) = pre ++ [m].
Proof.
  unfold replaceLast. rewrite bool_decide_true by (rewrite length_app; simpl; lia).
  rewrite length_app. simpl.
  replace (length pre + 1 - 1) with (length pre + 0) by lia.
  by rewrite insert_app_r.
Qed.

Lemma replaceLast_nil m : replaceLast m [] = [].
Proof. done. Qed.

Lemma replaceLast_length m prev : length (replaceLast m prev) = length prev.
Proof. unfold replaceLast. case_bool_decide; [apply length_insert | done]. Qed.

Lemma replaceLast_lookup m prev i :
  i <> length prev - 1 -> replaceLast m prev !! i = prev !! i.
Proof.
  intros Hi. unfold replaceLast. case_bool_decide; [| done].
  by rewrite list_lookup_insert_ne.
Qed.

Lemma replaceLast_last m prev :
  prev <> [] -> last (replaceLast m prev) = Some m.
Proof.
  destruct (decide (prev = [])) as [-> | Hne]; [done |]. intros _.
  destruct (exists_last Hne) as (pre & x & ->).
  by rewrite replaceLast_snoc, last_snoc.
Qed.

Lemma replaceLast_two m (l : list Message) u b :
  replaceLast m (l ++ [u; b]) = l ++ [u; m].
Proof.
  change [u; b] with ([u] ++ [b]).
  rewrite app_assoc, replaceLast_snoc. by rewrite <- app_assoc.
Qed.

Lemma last_two (l : list Message) u m : last (l ++ [u; m]) = Some m.
Proof. change [u; m] with ([u] ++ [m]). by rewrite app_assoc, last_snoc. Qed.

(** ** Facts about single steps *)

Lemma steps_app es1 es2 c :
  steps (es1 ++ es2) c = steps es1 c ≫= steps es2.
Proof.
  revert c. induction es1 as [|e es1 IH]; intros c; simpl; [done |].
  destruct (step e c) as [c' |]; simpl; [apply IH | done].
Qed.

(** An accepted click: the two messages are appended, the input is
    cleared, both flags are raised, the request is sent and the call is
    parked at [fetch]. *)
Lemma step_click_accepts c :
  accepts c ->
  step Click c =
  Some {| ui := {| messages := messages (ui c) ++
                      [ {| sender := user; text := trim (input (ui c)) |};
                        {| sender := bot; text := [] |} ];
                   input := []; loading := true; isStreaming := true |};
          pending := pending c ++ [AwaitFetch];
          network := network c ++ [rag_request (trim (input (ui c)))];
          console := console c |}.
Proof.
  intros (Hl & Ht). unfold step, handler, sendMessage.
  rewrite Hl, Ht. simpl. unfold with_pending, append. simpl.
  by rewrite <- app_assoc.
Qed.

Lemma step_click_ready c :
  ready c ->
  step Click c =
  Some {| ui := {| messages := messages (ui c) ++
                      [ {| sender := user; text := trim (input (ui c)) |};
                        {| sender := bot; text := [] |} ];
                   input := []; loading := true; isStreaming := true |};
          pending := [AwaitFetch];
          network := network c ++ [rag_request (trim (input (ui c)))];
          console := console c |}.
Proof. intros (Hp & Ha). rewrite step_click_accepts by done. by rewrite Hp. Qed.

(** With the guard open the Enter key does what the button does. *)
Lemma step_enter_accepts c : accepts c -> step Enter c = step Click c.
Proof. intros (Hl & Ht). unfold step, handler. by rewrite Hl, Ht. Qed.

Lemma step_fetch_stream c res :
  pending c = [AwaitFetch] -> ok res = true ->
  opt_includes (contentType res) (lit "text/plain") = true ->
  hasBody res = true ->
  step (Settle 0 (FetchFulfilled res)) c =
  Some (with_pending [AwaitRead newTextDecoder []] c).
Proof.
  intros Hp Hok Hct Hb. unfold step, handler. rewrite Hp. simpl.
  unfold after_fetch. by rewrite Hok, Hct, Hb.
Qed.

Lemma step_fetch_json c res :
  pending c = [AwaitFetch] -> ok res = true ->
  opt_includes (contentType res) (lit "text/plain") = false ->
  opt_includes (contentType res) (lit "application/json") = true ->
  step (Settle 0 (FetchFulfilled res)) c = Some (with_pending [AwaitJson] c).
Proof.
  intros Hp Hok Hct Hj. unfold step, handler. rewrite Hp. simpl.
  unfold after_fetch. by rewrite Hok, Hct, Hj.
Qed.

Lemma step_chunk c d acc pre m value :
  pending c = [AwaitRead d acc] -> messages (ui c) = pre ++ [m] ->
  step (Settle 0 (ReadFulfilled (Chunk value))) c =
  Some {| ui := {| messages :=
                     pre ++ [ {| sender := bot;
                                 text := acc ++ snd (decode d value) |} ];
                   input := input (ui c); loading := loading (ui c);
                   isStreaming := isStreaming (ui c) |};
          pending := [AwaitRead (fst (decode d value))
                                (acc ++ snd (decode d value))];
          network := network c; console := console c |}.
Proof.
  intros Hp Hm. unfold step, handler. rewrite Hp. simpl.
  destruct (decode d value) as [d' chunk]. simpl.
  unfold with_pending. simpl. by rewrite Hm, replaceLast_snoc.
Qed.

Lemma step_done c d acc :
  pending c = [AwaitRead d acc] ->
  step (Settle 0 (ReadFulfilled Done)) c =
  Some {| ui := {| messages := messages (ui c); input := input (ui c);
                   loading := false; isStreaming := false |};
          pending := []; network := network c; console := console c |}.
Proof. intros Hp. unfold step, handler. by rewrite Hp. Qed.

Lemma step_json c data pre m :
  pending c = [AwaitJson] -> messages (ui c) = pre ++ [m] ->
  step (Settle 0 (JsonFulfilled data)) c =
  Some {| ui := {| messages :=
                     pre ++ [ {| sender := bot;
                                 text := or_else (answer data) fallback |} ];
                   input := input (ui c);
                   loading := false; isStreaming := false |};
          pending := []; network := network c; console := console c |}.
Proof.
  intros Hp Hm. unfold step, handler. rewrite Hp. simpl.
  unfold with_pending. simpl. by rewrite Hm, replaceLast_snoc.
Qed.

(** The read loop: after the chunks delivered so far, the trailing message
    holds the text accumulated from them, and the call is parked at the
    next [read] with that text. *)
Lemma delivery_spec chunks : forall d acc c pre,
  pending c = [AwaitRead d acc] ->
  messages (ui c) = pre ++ [ {| sender := bot; text := acc |} ] ->
  steps (delivery 0 chunks) c =
  Some {| ui := {| messages :=
                     pre ++ [ {| sender := bot;
                                 text := acc ++ concat (decoded d chunks) |} ];
                   input := input (ui c); loading := loading (ui c);
                   isStreaming := isStreaming (ui c) |};
          pending := [AwaitRead (decoder_after d chunks)
                                (acc ++ concat (decoded d chunks))];
          network := network c; console := console c |}.
Proof.
  induction chunks as [|value chunks IH]; intros d acc c pre Hp Hm.
  - simpl. rewrite app_nil_r, <- Hm, <- Hp. by destruct c as [[] ? ? ?].
  - simpl. erewrite step_chunk by eassumption. simpl.
    erewrite IH by reflexivity. simpl. by rewrite <- app_assoc.
Qed.

Lemma decoded_take k : forall d chunks,
  decoded d (take k chunks) = take k (decoded d chunks).
Proof.
  induction k as [|k IH]; intros d [|value chunks]; simpl; try done.
  by rewrite IH.
Qed.

(** The session once an accepted submission has been answered by a
    streaming response and [chunks] have been read. *)
Lemma streaming_prefix c res chunks :
  ready c -> ok res = true ->
  opt_includes (contentType res) (lit "text/plain") = true ->
  hasBody res = true ->
  steps (Click :: Settle 0 (FetchFulfilled res) :: delivery 0 chunks) c =
  Some {| ui := {| messages :=
                     (messages (ui c) ++
                        [ {| sender := user; text := trim (input (ui c)) |} ]) ++
                     [ {| sender := bot;
                          text := concat (decoded newTextDecoder chunks) |} ];
                   input := []; loading := true; isStreaming := true |};
          pending := [AwaitRead (decoder_after newTextDecoder chunks)
                                (concat (decoded newTextDecoder chunks))];
          network := network c ++ [rag_request (trim (input (ui c)))];
          console := console c |}.
Proof.
  intros Hr Hok Hct Hb. simpl. rewrite step_click_ready by done. simpl.
  rewrite step_fetch_stream by done. simpl.
  erewrite (delivery_spec chunks newTextDecoder [] _
              (messages (ui c) ++
                 [ {| sender := user; text := trim (input (ui c)) |} ]));
    [done | done | simpl; by rewrite <- app_assoc].
Qed.

(** ** The session between events *)

(** What a suspended call does when its promise settles: it fails, moves
    on to the body, reads a chunk, reaches the end of the stream, or has
    the parsed body. *)
Lemma resume_cases t s acts t' :
  resume t s = Some (acts, t') ->
  (exists err, acts = catch_block err ++ finally_block /\ t' = None) \/
  (t = AwaitFetch /\ acts = [] /\
   (t' = Some (AwaitRead newTextDecoder []) \/ t' = Some AwaitJson)) \/
  (exists d acc value,
      t = AwaitRead d acc /\
      acts = [ setMessages
                 (replaceLast {| sender := bot;
                                 text := acc ++ snd (decode d value) |}) ] /\
      t' = Some (AwaitRead (fst (decode d value))
                           (acc ++ snd (decode d value)))) \/
  (exists d acc,
      t = AwaitRead d acc /\
      acts = [setIsStreaming false] ++ finally_block /\ t' = None) \/
  (exists m,
      t = AwaitJson /\
      acts = [setMessages (replaceLast {| sender := bot; text := m |});
              setIsStreaming false] ++ finally_block /\
      t' = None).
Proof.
  destruct t as [| d acc |], s as [res | [value |] | data |]; simpl;
    try discriminate.
  - unfold after_fetch.
    destruct (ok res), (opt_includes (contentType res) (lit "text/plain")),
      (hasBody res), (opt_includes (contentType res) (lit "application/json"));
      simpl; intros [= <- <-]; eauto 10.
  - intros [= <- <-]; eauto 10.
  - destruct (decode d value) as [d' chunk] eqn:E. simpl. intros [= <- <-].
    right. right. left. exists d, acc, value. by rewrite E.
  - intros [= <- <-]; eauto 10.
  - intros [= <- <-]; eauto 10.
  - intros [= <- <-]; eauto 10.
  - intros [= <- <-]; eauto 10.
Qed.

Lemma handler_settle c i s acts p :
  handler (Settle i s) c = Some (acts, p) ->
  exists t t',
    pending c !! i = Some t /\ resume t s = Some (acts, t') /\
    p = match t' with
        | Some t' => <[i := t']> (pending c)
        | None => delete i (pending c)
        end.
Proof.
  simpl. destruct (pending c !! i) as [t |]; simpl; [| done].
  destruct (resume t s) as [[acts' t'] |] eqn:Hr; simpl; [| done].
  intros [= <- <-]. by exists t, t'.
Qed.

(** A click or the Enter key: either nothing is issued, or the whole
    synchronous prefix of [sendMessage] is. *)
Lemma handler_submit c e acts p :
  e = Click \/ e = Enter ->
  handler e c = Some (acts, p) ->
  (acts = [] /\ p = pending c /\
   (truthy (trim (input (ui c))) = false \/ loading (ui c) = true)) \/
  (truthy (trim (input (ui c))) = true /\ loading (ui c) = false /\
   acts = [ setMessages
              (append {| sender := user; text := trim (input (ui c)) |});
            setInput []; setLoading true; setIsStreaming true;
            setMessages (append {| sender := bot; text := [] |});
            fetch (rag_request (trim (input (ui c)))) ] /\
   p = pending c ++ [AwaitFetch]).
Proof.
  intros He Hh.
  assert (Hs : let '(acts', t) := sendMessage (input (ui c)) (loading (ui c)) in
               Some (acts', pending c ++ option_list t) = Some (acts, p) \/
               (negb (loading (ui c)) && truthy (trim (input (ui c))) = false /\
                acts = [] /\ p = pending c)).
  { destruct He as [-> | ->]; cbn [handler] in Hh.
    - destruct (sendMessage _ _) as [acts0 t0]. by left.
    - destruct (negb (loading (ui c)) && truthy (trim (input (ui c)))).
      + destruct (sendMessage _ _) as [acts0 t0]. by left.
      + destruct (sendMessage _ _) as [acts0 t0]. right.
        by injection Hh as <- <-. }
  clear Hh. unfold sendMessage in Hs.
  destruct (truthy (trim (input (ui c)))), (loading (ui c));
    cbn [negb andb orb try_catch_finally app option_list] in Hs;
    destruct Hs as [[= <- <-] | (? & -> & ->)]; rewrite ?app_nil_r;
    try discriminate; auto 10.
Qed.

Lemma step_from_rest e c c' :
  at_rest c -> step e c = Some c' ->
  (at_rest c' /\ messages (ui c') = messages (ui c)) \/
  in_flight_after
    (messages (ui c) ++ [ {| sender := user; text := trim (input (ui c)) |} ])
    c'.
Proof.
  intros (Hp & Hl & Hs) Hstep. unfold step in Hstep.
  destruct (handler e c) as [[acts p] |] eqn:Hh; simpl in Hstep; [| done].
  injection Hstep as <-.
  destruct e as [q | | | i s].
  - injection Hh as <- <-. left. by repeat split.
  - apply handler_submit in Hh as [(-> & -> & _) | (_ & _ & -> & ->)];
      [| | by left]; [left; by repeat split |].
    right. exists AwaitFetch, []. rewrite Hp. unfold append. simpl.
    by repeat split.
  - apply handler_submit in Hh as [(-> & -> & _) | (_ & _ & -> & ->)];
      [| | by right]; [left; by repeat split |].
    right. exists AwaitFetch, []. rewrite Hp. unfold append. simpl.
    by repeat split.
  - apply handler_settle in Hh as (t & _ & Ht & _). by rewrite Hp in Ht.
Qed.

Lemma step_in_flight pre e c c' :
  in_flight_after pre c -> step e c = Some c' ->
  in_flight_after pre c' \/
  (at_rest c' /\
   exists txt, messages (ui c') = pre ++ [ {| sender := bot; text := txt |} ]).
Proof.
  intros (t & txt & Hp & Hl & Hs & Hm & Ht) Hstep. unfold step in Hstep.
  destruct (handler e c) as [[acts p] |] eqn:Hh; simpl in Hstep; [| done].
  injection Hstep as <-.
  destruct e as [q | | | i s].
  - injection Hh as <- <-. left. exists t, txt. by repeat split.
  - apply handler_submit in Hh as [(-> & -> & _) | (_ & Hl' & _)];
      [| | by left]; [| congruence].
    left. exists t, txt. by repeat split.
  - apply handler_submit in Hh as [(-> & -> & _) | (_ & Hl' & _)];
      [| | by right]; [| congruence].
    left. exists t, txt. by repeat split.
  - apply handler_settle in Hh as (t0 & t' & Hi & Hr & ->).
    rewrite Hp in Hi. destruct i as [| i]; [| done].
    injection Hi as <-. rewrite Hp.
    apply resume_cases in Hr
      as [(err & -> & ->) | [(-> & -> & Ht') | [(d & acc & value & -> & -> & ->)
         | [(d & acc & -> & -> & ->) | (m & -> & -> & ->)]]]]; simpl.
    + right. rewrite Hm, replaceLast_snoc. split; [by repeat split | eauto].
    + left. simpl in Ht. subst txt.
      destruct Ht' as [-> | ->]; eexists _, []; by repeat split.
    + left. eexists _, _. rewrite Hm, replaceLast_snoc. by repeat split.
    + right. split; [by repeat split | eauto].
    + right. rewrite Hm, replaceLast_snoc. split; [by repeat split | eauto].
Qed.

Lemma step_consistent e c c' :
  consistent c -> step e c = Some c' -> consistent c'.
Proof.
  intros [Hrest | [pre Hfl]] Hstep.
  - destruct (step_from_rest _ _ _ Hrest Hstep) as [[H _] | H];
      [by left | right; eauto].
  - destruct (step_in_flight _ _ _ _ Hfl Hstep) as [H | [H _]];
      [right; eauto | by left].
Qed.

(** Between two events the session is at rest or has exactly one call in
    flight. *)
Lemma reachable_consistent c : reachable c -> consistent c.
Proof.
  induction 1 as [| e c c' _ IH Hstep]; [by left | by eapply step_consistent].
Qed.

(** ** The session while a handler runs *)

Lemma during_app acts1 acts2 c :
  during (acts1 ++ acts2) c = during acts1 c ++ during acts2 (run acts1 c).
Proof.
  revert c. induction acts1 as [| a acts1 IH]; intros c; simpl; [done |].
  by rewrite IH.
Qed.

(** Calls that set no flag leave both flags as they were. *)
Lemma during_flags acts : forall c,
  Forall (fun a => sets_flag a = false) acts ->
  Forall (fun c' => loading (ui c') = loading (ui c) /\
                    isStreaming (ui c') = isStreaming (ui c))
         (during acts c) /\
  loading (ui (run acts c)) = loading (ui c) /\
  isStreaming (ui (run acts c)) = isStreaming (ui c).
Proof.
  induction acts as [| a acts IH]; intros c Hall; simpl; [by repeat split |].
  inversion Hall as [| ? ? Ha Hacts]; subst.
  assert (Hc : loading (ui (perform a c)) = loading (ui c) /\
               isStreaming (ui (perform a c)) = isStreaming (ui c))
    by (by destruct a).
  destruct Hc as [Hl Hs].
  destruct (IH (perform a c) Hacts) as (Hd & Hl' & Hs').
  rewrite <- Hl, <- Hs. split; [| done].
  constructor; [done |]. done.
Qed.

Lemma rewrites_last_only_refl (l : list Message) : rewrites_last_only l l.
Proof. by split. Qed.

Lemma rewrites_last_only_trans (l1 l2 l3 : list Message) :
  rewrites_last_only l1 l2 -> rewrites_last_only l2 l3 ->
  rewrites_last_only l1 l3.
Proof.
  intros [Hlen1 H1] [Hlen2 H2]. split; [congruence |].
  intros i Hi. rewrite H2 by lia. by apply H1.
Qed.

Lemma perform_tame a c :
  tame a -> rewrites_last_only (messages (ui c)) (messages (ui (perform a c))).
Proof.
  destruct a; simpl; try (intros _; apply rewrites_last_only_refl).
  intros [txt ->]. split; [apply replaceLast_length |].
  intros i Hi. apply replaceLast_lookup. lia.
Qed.

Lemma during_tame acts : forall c,
  Forall tame acts ->
  Forall (fun c' => rewrites_last_only (messages (ui c)) (messages (ui c')))
         (during acts c) /\
  rewrites_last_only (messages (ui c)) (messages (ui (run acts c))).
Proof.
  induction acts as [| a acts IH]; intros c Hall; simpl.
  - split; [constructor | apply rewrites_last_only_refl].
  - inversion Hall as [| ? ? Ha Hacts]; subst.
    pose proof (perform_tame a c Ha) as Hstep.
    destruct (IH (perform a c) Hacts) as [Hd Hr]. split.
    + constructor; [done |].
      eapply Forall_impl; [exact Hd |]. intros c' Hc'.
      by eapply rewrites_last_only_trans.
    + by eapply rewrites_last_only_trans.
Qed.

Lemma during_tame_last acts : forall c pre txt,
  messages (ui c) = pre ++ [ {| sender := bot; text := txt |} ] ->
  Forall tame acts ->
  Forall (fun c' =>
            exists txt',
              messages (ui c') = pre ++ [ {| sender := bot; text := txt' |} ])
         (during acts c).
Proof.
  induction acts as [| a acts IH]; intros c pre txt Hm Hall; simpl;
    [constructor |].
  inversion Hall as [| ? ? Ha Hacts]; subst.
  assert (Hm' : exists txt',
             messages (ui (perform a c)) =
             pre ++ [ {| sender := bot; text := txt' |} ]).
  { destruct a; simpl; eauto.
    destruct Ha as [txt' ->]. rewrite Hm, replaceLast_snoc. eauto. }
  constructor; [done |]. destruct Hm' as [txt' Hm']. by eapply IH.
Qed.

Lemma resume_tame t s acts t' :
  resume t s = Some (acts, t') -> Forall tame acts.
Proof.
  intros Hr. apply resume_cases in Hr
    as [(err & -> & _) | [(_ & -> & _) | [(d & acc & value & _ & -> & _)
       | [(d & acc & _ & -> & _) | (m & _ & -> & _)]]]];
    repeat constructor; simpl; eauto.
Qed.

(** The script of a settlement, seen from a consistent session: the call
    is the one in flight; either it suspends again without touching a
    flag, or it returns and its last two calls clear [isStreaming] and
    then [loading]. *)
Lemma settle_script c i s acts p :
  consistent c -> handler (Settle i s) c = Some (acts, p) ->
  loading (ui c) = true /\ isStreaming (ui c) = true /\
  ((exists t', p = [t'] /\ Forall (fun a => sets_flag a = false) acts) \/
   (p = [] /\
    exists acts',
      acts = acts' ++ [setIsStreaming false; setLoading false] /\
      Forall (fun a => sets_flag a = false) acts')).
Proof.
  intros Hc Hh. apply handler_settle in Hh as (t & t' & Hi & Hr & ->).
  destruct Hc as [(Hp & _) | (pre & t0 & txt & Hp & Hl & Hs & _)];
    rewrite Hp in Hi; [done |].
  destruct i as [| i]; [| done]. injection Hi as <-. rewrite Hp.
  split; [done |]. split; [done |].
  apply resume_cases in Hr
    as [(err & -> & ->) | [(-> & -> & Ht') | [(d & acc & value & -> & -> & ->)
       | [(d & acc & -> & -> & ->) | (m & -> & -> & ->)]]]]; simpl.
  - right. split; [done |].
    exists [console_error err;
            setMessages (replaceLast {| sender := bot; text := apology |})].
    split; [done | by repeat constructor].
  - left. destruct Ht' as [-> | ->]; eexists; by split.
  - left. eexists. split; [done | by repeat constructor].
  - right. split; [done |]. exists []. by split.
  - right. split; [done |].
    exists [setMessages (replaceLast {| sender := bot; text := m |})].
    split; [done | by repeat constructor].
Qed.

Lemma step_typing c q : step (Typing q) c = Some (perform (setInput q) c).
Proof. by destruct c. Qed.

Lemma rest_accepts c q :
  at_rest c -> truthy (trim q) = true ->
  exists c'',
    steps [Typing q; Click] c = Some c'' /\
    pending c'' = [AwaitFetch] /\ loading (ui c'') = true /\
    network c'' = network c ++ [rag_request (trim q)].
Proof.
  intros (Hp & Hl & _) Hq. eexists. split.
  - cbn [steps]. rewrite step_typing. cbn [mbind option_bind].
    rewrite step_click_ready by (by repeat split). reflexivity.
  - done.
Qed.

Lemma steps_reachable es : forall c c',
  reachable c -> steps es c = Some c' -> reachable c'.
Proof.
  induction es as [| e es IH]; intros c c' Hc; simpl.
  - by intros [= <-].
  - destruct (step e c) as [c1 |] eqn:He; simpl; [| done].
    apply IH. by eapply reachable_step.
Qed.

(** The failures are exactly the settlements that take the call through
    the [catch] block. *)
Lemma failure_iff_catch t s :
  failure t s <->
  exists err, resume t s = Some (catch_block err ++ finally_block, None).
Proof.
  split.
  - intros [t0 | res Hok | res Hct Hj | res Hok Hct Hb].
    + exists Rejection. by destruct t0.
    + exists (HttpError (status res)). simpl. unfold after_fetch.
      by rewrite Hok.
    + simpl. unfold after_fetch. rewrite Hct, Hj.
      destruct (ok res); simpl; eauto.
    + exists NoReader. simpl. unfold after_fetch. by rewrite Hok, Hct, Hb.
  - intros [err Hr].
    destruct s as [res | r | data |]; [| | | constructor];
      destruct t as [| d acc |]; simpl in Hr; try discriminate.
    + unfold after_fetch in Hr. destruct (ok res) eqn:Hok; simpl in Hr;
        [| by apply failure_status].
      destruct (opt_includes (contentType res) (lit "text/plain")) eqn:Hct.
      * destruct (hasBody res) eqn:Hb; [discriminate |].
        by apply failure_no_body.
      * destruct (opt_includes (contentType res) (lit "application/json"))
          eqn:Hj; [discriminate |].
        by apply failure_content_type.
    + destruct r as [value |]; simpl in Hr; [| discriminate].
      by destruct (decode d value).
Qed.

(** * The properties

    Each theorem below is one sentence of the specification.  [c] is an
    arbitrary session, or an arbitrary reachable one where the sentence
    is about the sessions the component can be in. *)

(** ** The two success paths *)

(** C1.  A streaming response (a success status such as 200, a content
    type that contains "text/plain", a body that arrives as a finite
    sequence of chunks) to an accepted submission: after each chunk the
    trailing message is a bot message whose text is the concatenation of
    the chunks decoded so far, and once the stream has reported its end the
    trailing bot message holds the concatenation of all decoded chunks, in
    delivery order, and the exchange is over. *)
Theorem streaming_text_is_concatenation c res chunks :
  ready c -> ok res = true ->
  opt_includes (contentType res) (lit "text/plain") = true ->
  hasBody res = true ->
  (forall k, exists c',
      steps (Click :: Settle 0 (FetchFulfilled res) ::
               delivery 0 (take k chunks)) c = Some c' /\
      trailing c' =
      Some {| sender := bot;
              text := concat (take k (decoded newTextDecoder chunks)) |}) /\
  (exists c',
      steps (Click :: Settle 0 (FetchFulfilled res) ::
               delivery 0 chunks ++ [Settle 0 (ReadFulfilled Done)]) c =
      Some c' /\
      trailing c' =
      Some {| sender := bot;
              text := concat (decoded newTextDecoder chunks) |} /\
      isStreaming (ui c') = false /\ loading (ui c') = false /\
      pending c' = []).
Proof.
  intros Hr Hok Hct Hb. split.
  - intros k. eexists. split; [by apply streaming_prefix |].
    unfold trailing. simpl. by rewrite last_snoc, decoded_take.
  - eexists. split.
    + change (?a :: ?b :: ?l ++ ?r) with ((a :: b :: l) ++ r).
      rewrite steps_app, streaming_prefix by done. reflexivity.
    + unfold trailing. simpl. by rewrite last_snoc.
Qed.

(** The JSON path within the contract: the exchange ends with the
    trailing bot message holding [data.answer || fallback]. *)
Lemma json_exchange c res data :
  ready c -> ok res = true ->
  opt_includes (contentType res) (lit "text/plain") = false ->
  opt_includes (contentType res) (lit "application/json") = true ->
  steps [Click; Settle 0 (FetchFulfilled res);
         Settle 0 (JsonFulfilled data)] c =
  Some {| ui := {| messages := messages (ui c) ++
                      [ {| sender := user; text := trim (input (ui c)) |};
                        {| sender := bot;
                           text := or_else (answer data) fallback |} ];
                   input := []; loading := false; isStreaming := false |};
          pending := [];
          network := network c ++ [rag_request (trim (input (ui c)))];
          console := console c |}.
Proof.
  intros Hr Hok Hct Hj. simpl. rewrite step_click_ready by done. simpl.
  rewrite step_fetch_json by done. simpl.
  unfold step, handler. simpl. by rewrite replaceLast_two.
Qed.

(** The parsed bodies the contract leaves out: [null], and those whose
    answer is truthy and not a string. *)
Lemma as_contract_None body :
  as_contract body = None <->
  body = JNull \/
  exists v, get_answer body = Some (Some v) /\ to_boolean v = true /\
            forall s, v <> JString s.
Proof.
  unfold as_contract. split.
  - destruct (get_answer body) as [[v |] |] eqn:Hg; [| done |].
    + intros Hv. right. exists v. split; [done |].
      destruct v as [| b | d | s | items | members]; try done.
      * by destruct b.
      * by destruct d.
    + intros _. left. by destruct body.
  - intros [-> | (v & -> & Hv & Hs)]; [done |].
    destruct v as [| b | d | s | items | members]; try done.
    + simpl in *. by rewrite Hv.
    + simpl in *. by rewrite Hv.
    + by destruct (Hs s).
Qed.

(** C2, as the code has it.  A response with a success status whose
    content type contains "application/json" and does not contain
    "text/plain" (the streaming test comes first), and whose parsed body
    is not [null] and has no answer that is truthy without being a string:
    the trailing bot message text is set to the [answer] member when that
    is a string other than the empty one, and to the fallback string when
    the body has no such member or the member is falsy (the empty string,
    [null], [false], zero); the fallback string appears in no other case,
    except as the answer itself. *)
Theorem json_answer_or_fallback c res body data :
  ready c -> ok res = true ->
  opt_includes (contentType res) (lit "text/plain") = false ->
  opt_includes (contentType res) (lit "application/json") = true ->
  as_contract body = Some data ->
  exists c',
    steps [Click; Settle 0 (FetchFulfilled res);
           Settle 0 (JsonFulfilled data)] c = Some c' /\
    (forall s, get_answer body = Some (Some (JString s)) -> s <> [] ->
               trailing c' = Some {| sender := bot; text := s |}) /\
    (get_answer body = Some None \/
     (exists v, get_answer body = Some (Some v) /\ to_boolean v = false) ->
     trailing c' = Some {| sender := bot; text := fallback |}) /\
    (trailing c' = Some {| sender := bot; text := fallback |} ->
     get_answer body = Some None \/
     (exists v, get_answer body = Some (Some v) /\ to_boolean v = false) \/
     get_answer body = Some (Some (JString fallback))) /\
    isStreaming (ui c') = false /\ loading (ui c') = false /\
    pending c' = [].
Proof.
  intros Hr Hok Hct Hj Hbody. eexists. split; [by apply json_exchange |].
  unfold trailing. simpl. rewrite last_two.
  unfold as_contract in Hbody.
  destruct (get_answer body) as [[v |] |]; [| | done].
  - assert (Hfalsy : to_boolean v = false ->
                     or_else (answer data) fallback = fallback).
    { intros Hv.
      destruct v as [| b | [] | s | items | members]; simpl in *;
        try discriminate Hv; try rewrite Hv in Hbody;
        injection Hbody as <-; simpl; by rewrite ?Hv. }
    destruct (to_boolean v) eqn:Hv.
    + destruct v as [| b | d | s | items | members]; simpl in Hbody;
        try (rewrite Hv in Hbody); try discriminate Hbody.
      injection Hbody as <-. simpl in *. rewrite Hv. split_and!; try done.
      * by intros s' [= <-] _.
      * intros [[=] | (v & [= <-] & Hv')]. simpl in Hv'. congruence.
      * intros [= ->]. by right; right.
    + rewrite Hfalsy by done. split_and!; try done.
      * intros s [= ->] Hs. simpl in Hv. by destruct s.
      * intros _. right. left. by exists v.
  - injection Hbody as <-. simpl. split_and!; try done. by left.
Qed.

(** ** Failure *)

(** C3.  In every reachable session, when the call in flight fails (its
    promise is rejected, or [fetch] is answered with a status that is not
    a success status, or with a content type that is neither "text/plain"
    nor "application/json", or without a body), the session ends in a
    state that does not depend on the cause: the text of the trailing bot
    message is the fixed apology, both flags are off, nothing is in
    flight, and no request is sent again.  The cause goes to the console
    only. *)
Theorem failure_shows_apology c i t s :
  reachable c -> pending c !! i = Some t -> failure t s ->
  exists c' pre m,
    messages (ui c) = pre ++ [m] /\
    step (Settle i s) c = Some c' /\
    ui c' = {| messages := pre ++ [ {| sender := bot; text := apology |} ];
               input := input (ui c);
               loading := false; isStreaming := false |} /\
    trailing c' = Some {| sender := bot; text := apology |} /\
    isStreaming (ui c') = false /\
    pending c' = [] /\ network c' = network c.
Proof.
  intros Hreach Hi Hf.
  destruct (reachable_consistent c Hreach)
    as [(Hp & _) | (pre & t0 & txt & Hp & _ & _ & Hm & _)];
    rewrite Hp in Hi; [done |].
  destruct i as [| i]; [| done]. injection Hi as ->.
  apply failure_iff_catch in Hf as [err Hr].
  eexists _, pre, _. split; [exact Hm |].
  unfold step, handler. rewrite Hp. simpl. rewrite Hr. simpl.
  split; [reflexivity |]. unfold trailing. simpl.
  rewrite Hm, replaceLast_snoc, last_snoc. by repeat split.
Qed.

(** ** Submission *)

(** C4.  A submission with an empty or blank input, or while [loading] is
    on, does nothing: no call is issued, and the session (message list,
    input, both flags, the requests sent) is what it was. *)
Theorem rejected_submission_is_noop c :
  blank (input (ui c)) = true \/ loading (ui c) = true ->
  sendMessage (input (ui c)) (loading (ui c)) = ([], None) /\
  step Click c = Some c /\ step Enter c = Some c.
Proof.
  intros H.
  assert (Hg : negb (truthy (trim (input (ui c)))) || loading (ui c) = true).
  { destruct H as [Hb | Hl].
    - apply trim_blank in Hb. by rewrite Hb.
    - rewrite Hl. apply orb_true_r. }
  assert (Hs : sendMessage (input (ui c)) (loading (ui c)) = ([], None)).
  { unfold sendMessage. by rewrite Hg. }
  split; [done |]. unfold step, handler. rewrite Hs. simpl.
  rewrite app_nil_r.
  replace (negb (loading (ui c)) && truthy (trim (input (ui c)))) with false
    by (destruct (loading (ui c)), (truthy (trim (input (ui c)))); done).
  simpl. by destruct c.
Qed.

(** C5.  An accepted submission, by the button or the Enter key, appends
    one user message, then one bot message with empty text, and then sends
    one request that carries the query: the calls before [fetch] send
    nothing and leave the message list two elements longer, ending in the
    empty bot message; the whole handler sends exactly that one request
    and leaves one more call in flight. *)
Theorem accepted_submission_order c :
  accepts c ->
  let userQuery := trim (input (ui c)) in
  let before :=
    [ setMessages (append {| sender := user; text := userQuery |});
      setInput [];
      setLoading true;
      setIsStreaming true;
      setMessages (append {| sender := bot; text := [] |}) ] in
  sendMessage (input (ui c)) (loading (ui c)) =
    (before ++ [fetch (rag_request userQuery)], Some AwaitFetch) /\
  forallb is_fetch before = false /\
  messages (ui (run before c)) =
    messages (ui c) ++ [ {| sender := user; text := userQuery |};
                         {| sender := bot; text := [] |} ] /\
  length (messages (ui (run before c))) = length (messages (ui c)) + 2 /\
  trailing (run before c) = Some {| sender := bot; text := [] |} /\
  network (run before c) = network c /\
  exists c',
    step Click c = Some c' /\ step Enter c = Some c' /\
    messages (ui c') = messages (ui (run before c)) /\
    network c' = network c ++ [rag_request userQuery] /\
    pending c' = pending c ++ [AwaitFetch] /\
    body (rag_request userQuery) = {| query := userQuery |}.
Proof.
  intros Hr. pose proof Hr as (Hl & Ht). simpl.
  split; [unfold sendMessage; by rewrite Hl, Ht |].
  split; [done |]. unfold append, trailing. simpl.
  rewrite <- (app_assoc _ [_] [_]). simpl.
  split; [done |]. split; [rewrite length_app; simpl; lia |].
  split. { change [?u; ?b] with ([u] ++ [b]). by rewrite app_assoc, last_snoc. }
  split; [done |]. eexists. split; [by apply step_click_accepts |].
  split; [rewrite step_enter_accepts by done; by apply step_click_accepts |].
  done.
Qed.

(** ** The flags and the message list *)

(** C6.  In every reachable session [loading] is on exactly while a call
    is in flight, whichever path the call takes: a settlement finds it on,
    leaves it on throughout when the call suspends again, and clears it
    with the very last call when the call returns.  With a non-blank input
    a submission is accepted exactly when [loading] is off, whatever the
    rest of the state.  Once a call has returned [loading] is off, and a
    new non-blank submission is accepted and sends its request. *)
Theorem loading_spans_exchange c :
  reachable c ->
  (loading (ui c) = true <-> pending c <> []) /\
  (truthy (trim (input (ui c))) = true ->
   (snd (sendMessage (input (ui c)) (loading (ui c))) = Some AwaitFetch <->
    loading (ui c) = false)) /\
  (forall i s acts p,
      handler (Settle i s) c = Some (acts, p) ->
      loading (ui c) = true /\
      (p <> [] -> Forall (fun c' => loading (ui c') = true) (during acts c)) /\
      (p = [] ->
       exists acts',
         acts = acts' ++ [setLoading false] /\
         Forall (fun c' => loading (ui c') = true) (during acts' c))) /\
  (forall i s c',
      step (Settle i s) c = Some c' -> pending c' = [] ->
      loading (ui c') = false /\
      forall q, truthy (trim q) = true ->
        exists c'',
          steps [Typing q; Click] c' = Some c'' /\
          pending c'' = [AwaitFetch] /\ loading (ui c'') = true /\
          network c'' = network c' ++ [rag_request (trim q)]).
Proof.
  intros Hreach. pose proof (reachable_consistent c Hreach) as Hc.
  split_and!.
  - destruct Hc as [(Hp & Hl & _) | (pre & t & txt & Hp & Hl & _)];
      rewrite Hp, Hl; by split.
  - intros Ht. unfold sendMessage. rewrite Ht.
    by destruct (loading (ui c)).
  - intros i s acts p Hh.
    destruct (settle_script c i s acts p Hc Hh)
      as (Hl & Hs & [(t' & -> & Hno) | (-> & acts' & -> & Hno)]);
      split_and!; try done.
    + intros _. destruct (during_flags acts c Hno) as (Hd & _).
      eapply Forall_impl; [exact Hd |]. intros c' [Hl' _]. congruence.
    + intros _. exists (acts' ++ [setIsStreaming false]).
      split; [by rewrite <- app_assoc |].
      destruct (during_flags acts' c Hno) as (Hd & Hl' & _).
      rewrite during_app. apply Forall_app. split.
      * eapply Forall_impl; [exact Hd |]. intros c' [Hl'' _]. congruence.
      * repeat constructor. simpl. congruence.
  - intros i s c' Hstep Hp'.
    assert (Hrest : at_rest c').
    { destruct (reachable_consistent c' (reachable_step _ _ _ Hreach Hstep))
        as [H | (pre & t & txt & Hp & _)]; [done | congruence]. }
    split; [apply Hrest |]. intros q Hq. by apply rest_accepts.
Qed.

(** C7.  In every reachable session at most one call is in flight.  While
    [isStreaming] is on, exactly one is, the last message is a bot
    message, and whatever happens next leaves every message before it as
    it is and the last a bot message: only its text can still change.
    This holds after each single call of a handler that runs on a
    settlement, too.  (Session states are the states between events: the
    calls of the submitting handler take effect together.) *)
Theorem one_in_flight_message c :
  reachable c ->
  length (pending c) <= 1 /\
  (isStreaming (ui c) = true ->
   exists pre txt,
     messages (ui c) = pre ++ [ {| sender := bot; text := txt |} ] /\
     length (pending c) = 1 /\
     (forall e c',
         step e c = Some c' ->
         exists txt',
           messages (ui c') = pre ++ [ {| sender := bot; text := txt' |} ]) /\
     (forall i s acts p,
         handler (Settle i s) c = Some (acts, p) ->
         Forall (fun c' =>
                   exists txt',
                     messages (ui c') =
                     pre ++ [ {| sender := bot; text := txt' |} ])
                (during acts c))).
Proof.
  intros Hreach.
  destruct (reachable_consistent c Hreach)
    as [(Hp & _ & Hs) | (pre & Hfl)].
  - rewrite Hp. split; [simpl; lia | congruence].
  - pose proof Hfl as (t & txt & Hp & _ & _ & Hm & _).
    rewrite Hp. split; [done |]. intros _. exists pre, txt.
    split; [done |]. split; [done |]. split.
    + intros e c' Hstep.
      destruct (step_in_flight pre e c c' Hfl Hstep)
        as [(t' & txt' & _ & _ & _ & Hm' & _) | [_ [txt' Hm']]]; eauto.
    + intros i s acts p Hh.
      apply handler_settle in Hh as (t0 & t' & _ & Hr & _).
      eapply during_tame_last; [exact Hm |]. by eapply resume_tame.
Qed.

(** C8.  Every update made while a response is handled (a chunk read, the
    JSON body, a failure) is a replacement of the last message: after each
    call of the handler the list has the length it had and every message
    before the last index is what it was.  Any step of the session either
    does that or appends the two messages of an accepted submission. *)
Theorem messages_append_only_but_last c :
  (forall t s acts t',
      resume t s = Some (acts, t') ->
      Forall tame acts /\
      Forall (fun c' =>
                rewrites_last_only (messages (ui c)) (messages (ui c')))
             (during acts c) /\
      rewrites_last_only (messages (ui c)) (messages (ui (run acts c)))) /\
  (forall e c',
      step e c = Some c' ->
      rewrites_last_only (messages (ui c)) (messages (ui c')) \/
      exists u b, messages (ui c') = messages (ui c) ++ [u; b]).
Proof.
  split.
  - intros t s acts t' Hr. pose proof (resume_tame _ _ _ _ Hr) as Ht.
    split; [done |]. by apply during_tame.
  - intros e c' Hstep. unfold step in Hstep.
    destruct (handler e c) as [[acts p] |] eqn:Hh; simpl in Hstep; [| done].
    injection Hstep as <-. destruct e as [q | | | i s].
    + injection Hh as <- <-. left. apply rewrites_last_only_refl.
    + apply handler_submit in Hh as [(-> & _) | (_ & _ & -> & _)];
        [| | by left]; [left; apply rewrites_last_only_refl |].
      right. eexists _, _. unfold append. simpl. by rewrite <- app_assoc.
    + apply handler_submit in Hh as [(-> & _) | (_ & _ & -> & _)];
        [| | by right]; [left; apply rewrites_last_only_refl |].
      right. eexists _, _. unfold append. simpl. by rewrite <- app_assoc.
    + apply handler_settle in Hh as (t & t' & _ & Hr & _). left.
      apply (during_tame acts c). by eapply resume_tame.
Qed.

(** C9.  In every reachable session, and after every single call of every
    handler run from it, [isStreaming] is on only if [loading] is on.  On
    acceptance [loading] is raised before [isStreaming]; a call that
    returns clears [isStreaming] and then, as its last call, [loading]. *)
Theorem streaming_implies_loading c :
  reachable c ->
  (isStreaming (ui c) = true -> loading (ui c) = true) /\
  (forall e acts p,
      handler e c = Some (acts, p) ->
      Forall (fun c' => isStreaming (ui c') = true -> loading (ui c') = true)
             (during acts c)) /\
  (accepts c ->
   exists a1 a2 a3,
     fst (sendMessage (input (ui c)) (loading (ui c))) =
       a1 ++ setLoading true :: a2 ++ setIsStreaming true :: a3 /\
     Forall (fun a => sets_flag a = false) (a1 ++ a2 ++ a3)) /\
  (forall i s acts,
      handler (Settle i s) c = Some (acts, []) ->
      exists acts',
        acts = acts' ++ [setIsStreaming false; setLoading false] /\
        Forall (fun a => sets_flag a = false) acts').
Proof.
  intros Hreach. pose proof (reachable_consistent c Hreach) as Hc.
  assert (Hinv : isStreaming (ui c) = true -> loading (ui c) = true).
  { destruct Hc as [(_ & _ & Hs) | (pre & t & txt & _ & Hl & _)]; congruence. }
  split_and!; [done | | |].
  - intros e acts p Hh. destruct e as [q | | | i s].
    + injection Hh as <- <-. by repeat constructor.
    + apply handler_submit in Hh as [(-> & _) | (_ & Hl & -> & _)];
        [| | by left]; [constructor |].
      assert (Hs : isStreaming (ui c) = false)
        by (destruct (isStreaming (ui c)); [rewrite Hinv in Hl |]; done).
      simpl. repeat constructor; simpl; congruence.
    + apply handler_submit in Hh as [(-> & _) | (_ & Hl & -> & _)];
        [| | by right]; [constructor |].
      assert (Hs : isStreaming (ui c) = false)
        by (destruct (isStreaming (ui c)); [rewrite Hinv in Hl |]; done).
      simpl. repeat constructor; simpl; congruence.
    + destruct (settle_script c i s acts p Hc Hh)
        as (Hl & Hs & [(t' & -> & Hno) | (-> & acts' & -> & Hno)]).
      * destruct (during_flags acts c Hno) as (Hd & _).
        eapply Forall_impl; [exact Hd |]. intros c' [Hl' _]. congruence.
      * destruct (during_flags acts' c Hno) as (Hd & Hl' & _).
        rewrite during_app. apply Forall_app. split.
        -- eapply Forall_impl; [exact Hd |]. intros c' [Hl'' _]. congruence.
        -- repeat constructor; simpl; congruence.
  - intros (Hl & Ht).
    exists [ setMessages
               (append {| sender := user; text := trim (input (ui c)) |});
             setInput [] ], [],
           [ setMessages (append {| sender := bot; text := [] |});
             fetch (rag_request (trim (input (ui c)))) ].
    unfold sendMessage. rewrite Hl, Ht. split; [done |].
    by repeat constructor.
  - intros i s acts Hh.
    destruct (settle_script c i s acts [] Hc Hh)
      as (_ & _ & [(t' & [=] & _) | (_ & acts' & -> & Hno)]).
    by exists acts'.
Qed.

(** C10.  On an accepted submission the text of the user message and the
    query of the request are the trimmed input: the input without a blank
    prefix and a blank suffix, itself neither starting nor ending with
    white space.  The input is reset to the empty string by a call issued
    before [fetch], so it is empty when the request goes out. *)
Theorem accepted_submission_trims c :
  accepts c ->
  let userQuery := trim (input (ui c)) in
  (exists l r,
      input (ui c) = l ++ userQuery ++ r /\ blank l = true /\ blank r = true /\
      (forall a, head userQuery = Some a -> isWhiteSpace a = false) /\
      (forall a, last userQuery = Some a -> isWhiteSpace a = false)) /\
  userQuery <> [] /\
  (exists before,
      fst (sendMessage (input (ui c)) (loading (ui c))) =
        before ++ [fetch (rag_request userQuery)] /\
      forallb is_fetch before = false /\
      input (ui (run before c)) = [] /\
      messages (ui (run before c)) !! length (messages (ui c)) =
        Some {| sender := user; text := userQuery |}) /\
  query (body (rag_request userQuery)) = userQuery /\
  exists c',
    step Click c = Some c' /\ input (ui c') = [] /\
    network c' = network c ++ [rag_request userQuery].
Proof.
  intros Hr. pose proof Hr as (Hl & Ht). simpl.
  split; [apply trim_spec |].
  split; [by destruct (trim (input (ui c))) |].
  split.
  - exists [ setMessages
               (append {| sender := user; text := trim (input (ui c)) |});
             setInput []; setLoading true; setIsStreaming true;
             setMessages (append {| sender := bot; text := [] |}) ].
    split; [unfold sendMessage; by rewrite Hl, Ht |].
    split; [done |]. split; [done |]. unfold append. simpl.
    rewrite lookup_app_l by (rewrite length_app; simpl; lia).
    by rewrite list_lookup_middle.
  - split; [done |]. eexists. split; [by apply step_click_accepts |]. done.
Qed.

(** * Further properties of the handler, the view and the effect *)

(** ** What one event does to a session *)

(** From a consistent session an event is of one of four kinds: it leaves
    everything but the input as it is; it is an accepted submission; it
    lets the call in flight go on; or it lets that call return. *)
Lemma step_kinds e c c' :
  consistent c -> step e c = Some c' ->
  (messages (ui c') = messages (ui c) /\
   loading (ui c') = loading (ui c) /\
   isStreaming (ui c') = isStreaming (ui c) /\
   pending c' = pending c /\ network c' = network c /\
   console c' = console c /\
   (input (ui c') = input (ui c) \/ exists q, e = Typing q)) \/
  (at_rest c /\ accepts c /\ (e = Click \/ e = Enter) /\
   c' = {| ui := {| messages := messages (ui c) ++
                       [ {| sender := user; text := trim (input (ui c)) |};
                         {| sender := bot; text := [] |} ];
                    input := []; loading := true; isStreaming := true |};
           pending := [AwaitFetch];
           network := network c ++ [rag_request (trim (input (ui c)))];
           console := console c |}) \/
  (exists t t' pre txt txt',
      pending c = [t] /\ pending c' = [t'] /\
      messages (ui c) = pre ++ [ {| sender := bot; text := txt |} ] /\
      messages (ui c') = pre ++ [ {| sender := bot; text := txt' |} ] /\
      loading (ui c) = true /\ loading (ui c') = true /\
      isStreaming (ui c') = true /\
      input (ui c') = input (ui c) /\
      network c' = network c /\ console c' = console c) \/
  (exists t pre txt txt',
      pending c = [t] /\ pending c' = [] /\
      messages (ui c) = pre ++ [ {| sender := bot; text := txt |} ] /\
      messages (ui c') = pre ++ [ {| sender := bot; text := txt' |} ] /\
      loading (ui c) = true /\ loading (ui c') = false /\
      isStreaming (ui c') = false /\
      input (ui c') = input (ui c) /\
      network c' = network c /\
      (console c' = console c \/ exists err, console c' = console c ++ [err])).
Proof.
  intros Hc Hstep. unfold step in Hstep.
  destruct (handler e c) as [[acts p] |] eqn:Hh; simpl in Hstep; [| done].
  injection Hstep as <-.
  destruct e as [q | | | i s].
  - injection Hh as <- <-. left. simpl. repeat split; eauto.
  - apply handler_submit in Hh as [(-> & -> & _) | (Ht & Hl & -> & ->)];
      [| | by left]; [left; simpl; repeat split; eauto |].
    right. left.
    destruct Hc as [Hrest | (pre & t & txt & _ & Hl' & _)]; [| congruence].
    pose proof Hrest as (Hp & _).
    split; [done |]. split; [done |]. split; [by left |].
    rewrite Hp. unfold append, with_pending. simpl.
    by rewrite <- app_assoc.
  - apply handler_submit in Hh as [(-> & -> & _) | (Ht & Hl & -> & ->)];
      [| | by right]; [left; simpl; repeat split; eauto |].
    right. left.
    destruct Hc as [Hrest | (pre & t & txt & _ & Hl' & _)]; [| congruence].
    pose proof Hrest as (Hp & _).
    split; [done |]. split; [done |]. split; [by right |].
    rewrite Hp. unfold append, with_pending. simpl.
    by rewrite <- app_assoc.
  - apply handler_settle in Hh as (t0 & t' & Hi & Hr & ->).
    destruct Hc as [(Hp & _) | (pre & t & txt & Hp & Hl & Hs & Hm & Ht)];
      rewrite Hp in Hi; [done |].
    destruct i as [| i]; [| done]. injection Hi as <-. rewrite Hp.
    right. right.
    apply resume_cases in Hr
      as [(err & -> & ->) | [(-> & -> & Ht') | [(d & acc & value & -> & -> & ->)
         | [(d & acc & -> & -> & ->) | (m & -> & -> & ->)]]]]; simpl.
    + right. exists t, pre, txt, apology. rewrite Hm, replaceLast_snoc.
      repeat split; eauto.
    + left. destruct Ht' as [-> | ->];
        eexists AwaitFetch, _, pre, txt, txt; by repeat split.
    + left. eexists _, _, pre, txt, _. rewrite Hm, replaceLast_snoc.
      by repeat split.
    + right. exists (AwaitRead d acc), pre, txt, txt.
      repeat split; eauto.
    + right. exists AwaitJson, pre, txt, m. rewrite Hm, replaceLast_snoc.
      repeat split; eauto.
Qed.

(** ** The conversation *)

Lemma transcript_last net pre txt :
  transcript net (pre ++ [ {| sender := bot; text := txt |} ]) ->
  exists net0 req ms0,
    net = net0 ++ [req] /\
    pre = ms0 ++ [ {| sender := user; text := query (body req) |} ] /\
    transcript net0 ms0.
Proof.
  intros H. remember (pre ++ [ {| sender := bot; text := txt |} ]) as ms eqn:E.
  destruct H as [| net0 ms0 req reply H0].
  - by destruct pre.
  - exists net0, req, ms0. split; [done |]. split; [| done].
    change [?u; ?b] with ([u] ++ [b]) in E. rewrite app_assoc in E.
    by apply app_inj_tail in E as [<- _].
Qed.

Lemma transcript_length net ms : transcript net ms -> length ms = 2 * length net.
Proof.
  induction 1 as [| net ms req reply _ IH]; [done |].
  rewrite !length_app, IH. simpl. lia.
Qed.

Lemma transcript_lookup net ms :
  transcript net ms ->
  forall k req,
    net !! k = Some req ->
    ms !! (2 * k) = Some {| sender := user; text := query (body req) |} /\
    exists reply, ms !! (2 * k + 1) = Some {| sender := bot; text := reply |}.
Proof.
  induction 1 as [| net ms req reply H IH]; intros k r Hk; [done |].
  pose proof (transcript_length _ _ H) as Hlen.
  destruct (decide (k < length net)) as [Hlt | Hge].
  - rewrite lookup_app_l in Hk by done.
    destruct (IH k r Hk) as [Hu [reply' Hb]]. split.
    + rewrite lookup_app_l by lia. exact Hu.
    + exists reply'. rewrite lookup_app_l by lia. exact Hb.
  - rewrite lookup_app_r in Hk by lia.
    destruct (k - length net) as [| n] eqn:Hn; [| by destruct n].
    injection Hk as <-. assert (k = length net) as -> by lia. split.
    + rewrite lookup_app_r by lia.
      by replace (2 * length net - length ms) with 0 by lia.
    + exists reply. rewrite lookup_app_r by lia.
      by replace (2 * length net + 1 - length ms) with 1 by lia.
Qed.

Lemma transcript_step e c c' :
  consistent c -> transcript (network c) (messages (ui c)) ->
  step e c = Some c' ->
  transcript (network c') (messages (ui c')).
Proof.
  intros Hc Ht Hstep.
  assert (Hrewrite : forall pre txt txt',
             messages (ui c) = pre ++ [ {| sender := bot; text := txt |} ] ->
             transcript (network c)
                        (pre ++ [ {| sender := bot; text := txt' |} ])).
  { intros pre txt txt' Hm. rewrite Hm in Ht.
    apply transcript_last in Ht as (net0 & req & ms0 & -> & -> & H0).
    rewrite <- app_assoc. by apply transcript_snoc. }
  destruct (step_kinds e c c' Hc Hstep)
    as [(-> & _ & _ & _ & -> & _)
       | [(_ & _ & _ & ->)
       | [(t & t' & pre & txt & txt' & _ & _ & Hm & -> & _ & _ & _ & _ & -> & _)
       | (t & pre & txt & txt' & _ & _ & Hm & -> & _ & _ & _ & _ & -> & _)]]];
    simpl; eauto.
  by apply (transcript_snoc _ _ (rag_request _)).
Qed.

Lemma reachable_transcript c :
  reachable c -> transcript (network c) (messages (ui c)).
Proof.
  induction 1 as [| e c c' Hreach IH Hstep]; [constructor |].
  eapply transcript_step; [by apply reachable_consistent | exact IH | done].
Qed.

(** X1.  In every reachable session the message list is the transcript of
    the requests sent: for the [k]-th request, the user message with its
    query at index [2k] and one bot message at index [2k+1], and nothing
    else. *)
Theorem messages_follow_requests c :
  reachable c ->
  transcript (network c) (messages (ui c)) /\
  length (messages (ui c)) = 2 * length (network c) /\
  forall k req,
    network c !! k = Some req ->
    messages (ui c) !! (2 * k) =
      Some {| sender := user; text := query (body req) |} /\
    exists reply,
      messages (ui c) !! (2 * k + 1) = Some {| sender := bot; text := reply |}.
Proof.
  intros Hreach. pose proof (reachable_transcript c Hreach) as Ht.
  split; [done |]. split; [by apply transcript_length |].
  by apply transcript_lookup.
Qed.

(** ** The requests *)

Lemma trimStart_id (s : jsstring) :
  (forall c, head s = Some c -> isWhiteSpace c = false) -> trimStart s = s.
Proof. destruct s as [| c s]; simpl; [done |]. intros H. by rewrite (H c). Qed.

Lemma trimEnd_id (s : jsstring) :
  (forall c, last s = Some c -> isWhiteSpace c = false) -> trimEnd s = s.
Proof.
  destruct s as [| c s _] using rev_ind; [done |]. intros H.
  unfold trimEnd. rewrite rev_unit. simpl.
  rewrite (H c) by apply last_snoc. simpl. by rewrite rev_involutive.
Qed.

(** Trimming what is trimmed changes nothing. *)
Lemma trim_idem (s : jsstring) : trim (trim s) = trim s.
Proof.
  destruct (trim_spec s) as (_ & _ & _ & _ & _ & Hhead & Hlast).
  unfold trim at 1. rewrite trimStart_id by done. by apply trimEnd_id.
Qed.

(** X2.  Every request a reachable session has sent is the POST to
    "/api/rag" with the JSON content type, and its query is not empty and
    is trimmed: it neither starts nor ends with white space. *)
Theorem requests_carry_trimmed_queries c :
  reachable c ->
  Forall (fun req =>
            req = rag_request (query (body req)) /\
            url req = lit "/api/rag" /\ method req = lit "POST" /\
            headers req = [(lit "Content-Type", lit "application/json")] /\
            query (body req) <> [] /\
            trim (query (body req)) = query (body req) /\
            (forall a, head (query (body req)) = Some a ->
                       isWhiteSpace a = false) /\
            (forall a, last (query (body req)) = Some a ->
                       isWhiteSpace a = false))
         (network c).
Proof.
  induction 1 as [| e c c' Hreach IH Hstep]; [constructor |].
  destruct (step_kinds e c c' (reachable_consistent c Hreach) Hstep)
    as [(_ & _ & _ & _ & -> & _)
       | [(_ & (_ & Ht) & _ & ->)
       | [(t & t' & pre & txt & txt' & _ & _ & _ & _ & _ & _ & _ & _ & -> & _)
       | (t & pre & txt & txt' & _ & _ & _ & _ & _ & _ & _ & _ & -> & _)]]];
    try done.
  simpl. apply Forall_app. split; [done |]. constructor; [| constructor].
  destruct (trim_spec (input (ui c))) as (_ & _ & _ & _ & _ & Hhead & Hlast).
  simpl. split_and!; try done.
  - by destruct (trim (input (ui c))).
  - apply trim_idem.
Qed.

(** X3.  Only an accepted submission sends a request, and it sends one:
    every other event leaves the requests sent as they are.  So a failure
    is never retried, and in every reachable session the errors logged
    and the calls in flight together are no more than the requests
    sent. *)
Theorem one_request_per_submission c :
  reachable c ->
  length (console c) + length (pending c) <= length (network c) /\
  forall e c',
    step e c = Some c' ->
    network c' = network c \/
    ((e = Click \/ e = Enter) /\ accepts c /\
     network c' = network c ++ [rag_request (trim (input (ui c)))]).
Proof.
  intros Hreach. split.
  - induction Hreach as [| e c c' Hreach IH Hstep]; [done |].
    destruct (step_kinds e c c' (reachable_consistent c Hreach) Hstep)
      as [(_ & _ & _ & -> & -> & -> & _)
         | [((Hp & _) & _ & _ & ->)
         | [(t & t' & pre & txt & txt' & Hp & -> & _ & _ & _ & _ & _ & _ &
             -> & ->)
         | (t & pre & txt & txt' & Hp & -> & _ & _ & _ & _ & _ & _ & -> &
            [-> | [err ->]])]]];
      rewrite ?Hp in IH; simpl in *; rewrite ?length_app; simpl; lia.
  - intros e c' Hstep.
    destruct (step_kinds e c c' (reachable_consistent c Hreach) Hstep)
      as [(_ & _ & _ & _ & -> & _)
         | [(_ & Ha & He & ->)
         | [(t & t' & pre & txt & txt' & _ & _ & _ & _ & _ & _ & _ & _ &
             -> & _)
         | (t & pre & txt & txt' & _ & _ & _ & _ & _ & _ & _ & _ & -> & _)]]];
      auto.
Qed.

(** ** The history *)

Lemma settled_step e c c' :
  consistent c -> step e c = Some c' ->
  settled (ui c) `prefix_of` settled (ui c').
Proof.
  intros Hc Hstep. unfold settled.
  destruct (step_kinds e c c' Hc Hstep)
    as [(-> & -> & _)
       | [((_ & Hl & _) & _ & _ & ->)
       | [(t & t' & pre & txt & txt' & _ & _ & -> & -> & -> & -> & _)
       | (t & pre & txt & txt' & _ & _ & -> & -> & -> & -> & _)]]].
  - done.
  - rewrite Hl. simpl. rewrite length_app. simpl.
    replace (length (messages (ui c)) + 2 - 1)
      with (length (messages (ui c)) + 1) by lia.
    rewrite take_app_add'; [| done]. by apply prefix_app_r.
  - by rewrite !length_app, !Nat.add_sub, !take_app_length.
  - rewrite length_app, Nat.add_sub, take_app_length. by apply prefix_app_r.
Qed.

Lemma settled_steps es : forall c c',
  reachable c -> steps es c = Some c' ->
  settled (ui c) `prefix_of` settled (ui c').
Proof.
  induction es as [| e es IH]; intros c c' Hreach Hsteps; simpl in Hsteps.
  - by injection Hsteps as <-.
  - destruct (step e c) as [c1 |] eqn:Hstep; simpl in Hsteps; [| done].
    etrans; [by eapply settled_step, Hstep; apply reachable_consistent |].
    eapply IH; [by eapply reachable_step | done].
Qed.

(** X4.  What is settled stays: along any run from a reachable session,
    the messages that were final (all of them at rest, all but the last
    during an exchange) are still there, unchanged and in place. *)
Theorem settled_messages_stay es : forall c c',
  reachable c -> steps es c = Some c' ->
  settled (ui c) `prefix_of` settled (ui c') /\
  forall i m, settled (ui c) !! i = Some m -> messages (ui c') !! i = Some m.
Proof.
  intros c c' Hreach Hsteps.
  pose proof (settled_steps es c c' Hreach Hsteps) as Hp.
  split; [done |]. intros i m Hi.
  eapply prefix_lookup_Some in Hi; [| exact Hp].
  unfold settled in Hi. destruct (loading (ui c')); [| done].
  by apply lookup_take_Some in Hi as [Hi _].
Qed.

(** ** The read loop *)

(** X5.  While the body is read, the text on display is the accumulated
    text, and reading only ever appends to it: a chunk puts its decoded
    text after what is shown and touches no other message, and the end of
    the stream leaves the messages as they are. *)
Theorem streamed_text_only_grows c i d acc :
  reachable c -> pending c !! i = Some (AwaitRead d acc) ->
  trailing c = Some {| sender := bot; text := acc |} /\
  (forall value,
      exists c',
        step (Settle i (ReadFulfilled (Chunk value))) c = Some c' /\
        trailing c' =
          Some {| sender := bot; text := acc ++ snd (decode d value) |} /\
        pending c' = [AwaitRead (fst (decode d value))
                                (acc ++ snd (decode d value))] /\
        forall j, j < length (messages (ui c)) - 1 ->
                  messages (ui c') !! j = messages (ui c) !! j) /\
  (exists c',
      step (Settle i (ReadFulfilled Done)) c = Some c' /\
      messages (ui c') = messages (ui c) /\
      isStreaming (ui c') = false /\ loading (ui c') = false /\
      pending c' = []).
Proof.
  intros Hreach Hi.
  destruct (reachable_consistent c Hreach)
    as [(Hp & _) | (pre & t & txt & Hp & _ & _ & Hm & Ht)];
    rewrite Hp in Hi; [done |].
  destruct i as [| i]; [| done]. injection Hi as ->. simpl in Ht. subst txt.
  unfold trailing. rewrite Hm, last_snoc. split; [done |]. split.
  - intros value. eexists. split; [by eapply step_chunk |]. simpl.
    rewrite last_snoc. split; [done |]. split; [done |].
    intros j Hj. rewrite length_app in Hj. simpl in Hj.
    by rewrite !lookup_app_l by lia.
  - eexists. split; [by eapply step_done |]. by rewrite Hm.
Qed.

Lemma decoded_concat chunks : forall d,
  streams ->
  concat (decoded d chunks) = snd (decode d (concat chunks)) /\
  decoder_after d chunks = fst (decode d (concat chunks)).
Proof.
  induction chunks as [| value chunks IH]; intros d [Hnil Happ]; simpl.
  - by rewrite Hnil.
  - destruct (IH (fst (decode d value)) (conj Hnil Happ)) as [-> ->].
    by rewrite Happ.
Qed.

(** X6.  With a decoder that streams (decoding piece by piece gives what
    decoding at once gives), the exchange ends in the same session however
    the body was cut into chunks: the text is the decoding of the whole
    body. *)
Theorem chunking_does_not_matter c res chunks1 chunks2 :
  streams -> ready c -> ok res = true ->
  opt_includes (contentType res) (lit "text/plain") = true ->
  hasBody res = true ->
  concat chunks1 = concat chunks2 ->
  steps (Click :: Settle 0 (FetchFulfilled res) ::
           delivery 0 chunks1 ++ [Settle 0 (ReadFulfilled Done)]) c =
  steps (Click :: Settle 0 (FetchFulfilled res) ::
           delivery 0 chunks2 ++ [Settle 0 (ReadFulfilled Done)]) c /\
  exists c',
    steps (Click :: Settle 0 (FetchFulfilled res) ::
             delivery 0 chunks1 ++ [Settle 0 (ReadFulfilled Done)]) c =
      Some c' /\
    trailing c' =
      Some {| sender := bot;
              text := snd (decode newTextDecoder (concat chunks1)) |}.
Proof.
  intros Hs Hr Hok Hct Hb Hsame.
  assert (Hrun : forall chunks,
             steps (Click :: Settle 0 (FetchFulfilled res) ::
                      delivery 0 chunks ++ [Settle 0 (ReadFulfilled Done)]) c =
             Some {| ui := {| messages :=
                                (messages (ui c) ++
                                   [ {| sender := user;
                                        text := trim (input (ui c)) |} ]) ++
                                [ {| sender := bot;
                                     text := snd (decode newTextDecoder
                                                         (concat chunks)) |} ];
                              input := []; loading := false;
                              isStreaming := false |};
                     pending := [];
                     network := network c ++
                                  [rag_request (trim (input (ui c)))];
                     console := console c |}).
  { intros chunks.
    change (?a :: ?b :: ?l ++ ?r) with ((a :: b :: l) ++ r).
    rewrite steps_app, streaming_prefix by done.
    destruct (decoded_concat chunks newTextDecoder Hs) as [-> _].
    reflexivity. }
  rewrite !Hrun, Hsame. split; [done |]. eexists. split; [done |].
  unfold trailing. simpl. by rewrite last_snoc.
Qed.

(** ** The view *)

Lemma bubbles_lookup st i :
  bubbles (render st) !! i = bubble st i <$> messages st !! i.
Proof. apply list_lookup_imap. Qed.

Lemma bubble_indicator st i msg :
  content (bubble st i msg) = TypingIndicator <->
  text msg = [] /\ isStreaming st = true /\ i = length (messages st) - 1.
Proof.
  unfold bubble. simpl. destruct (text msg) as [| a t]; simpl.
  - destruct (isStreaming st); simpl.
    + destruct (Nat.eqb_spec i (length (messages st) - 1));
        split; (done || by intros (_ & _ & ?)).
    + split; (done || by intros (_ & ? & _)).
  - split; (done || by intros (? & _)).
Qed.

Lemma last_bubble st pre m :
  messages st = pre ++ [m] ->
  last (bubbles (render st)) = Some (bubble st (length pre) m).
Proof.
  intros Hm. rewrite last_lookup, bubbles_lookup. simpl.
  rewrite length_imap, Hm, length_app. simpl.
  replace (pred (length pre + 1)) with (length pre) by lia.
  by rewrite list_lookup_middle.
Qed.


(** X7.  In a reachable session the typing indicator is on display exactly
    when an exchange is streaming and its bot message is still empty; it
    is then shown once, in the last bubble, which is a bot bubble. *)
Theorem typing_indicator_marks_waiting c :
  reachable c ->
  ((exists i b,
       bubbles (render (ui c)) !! i = Some b /\ content b = TypingIndicator) <->
   (isStreaming (ui c) = true /\
    trailing c = Some {| sender := bot; text := [] |})) /\
  (forall i b,
      bubbles (render (ui c)) !! i = Some b -> content b = TypingIndicator ->
      i = length (messages (ui c)) - 1 /\ side b = bot /\ key b = i).
Proof.
  intros Hreach.
  assert (Hshown : forall i b,
             bubbles (render (ui c)) !! i = Some b ->
             content b = TypingIndicator ->
             isStreaming (ui c) = true /\
             i = length (messages (ui c)) - 1 /\
             messages (ui c) !! i = Some {| sender := bot; text := [] |} /\
             b = bubble (ui c) i {| sender := bot; text := [] |}).
  { intros i b Hb Hc. rewrite bubbles_lookup in Hb.
    destruct (messages (ui c) !! i) as [msg |] eqn:Hi; [| done].
    injection Hb as <-. apply bubble_indicator in Hc as (Htxt & Hs & ->).
    destruct (reachable_consistent c Hreach)
      as [(_ & _ & Hs') | (pre & t & txt & _ & _ & _ & Hm & _)];
      [congruence |].
    rewrite Hm, length_app in Hi. simpl in Hi.
    replace (length pre + 1 - 1) with (length pre) in Hi by lia.
    rewrite list_lookup_middle in Hi by done. injection Hi as <-.
    simpl in Htxt. subst txt. by repeat split. }
  split.
  - split.
    + intros (i & b & Hb & Hc).
      destruct (Hshown i b Hb Hc) as (Hs & -> & Hi & _). split; [done |].
      unfold trailing. rewrite last_lookup.
      by replace (pred (length (messages (ui c))))
        with (length (messages (ui c)) - 1) by lia.
    + intros (Hs & Ht). unfold trailing in Ht.
      apply last_Some in Ht as [pre Hm].
      exists (length pre), (bubble (ui c) (length pre)
                                   {| sender := bot; text := [] |}).
      split.
      * rewrite bubbles_lookup, Hm. by rewrite list_lookup_middle.
      * apply bubble_indicator. split; [done |]. split; [done |].
        rewrite Hm, length_app. simpl. lia.
  - intros i b Hb Hc. destruct (Hshown i b Hb Hc) as (_ & Hi & _ & ->).
    by repeat split.
Qed.


Lemma concat_nil_take (l : list jsstring) k :
  concat l = [] -> concat (take k l) = [].
Proof.
  revert k. induction l as [| x l IH]; intros k; [by destruct k |].
  simpl. intros [-> Hl]%app_eq_nil. destruct k; simpl; auto.
Qed.

(** X9.  A stream that yields no text (no chunk, or chunks that decode to
    nothing) shows the typing indicator in the last bubble for as long as
    it lasts, and leaves that bubble empty when it ends: neither text nor
    indicator. *)
Theorem empty_stream_leaves_blank_bubble c res chunks :
  ready c -> ok res = true ->
  opt_includes (contentType res) (lit "text/plain") = true ->
  hasBody res = true ->
  concat (decoded newTextDecoder chunks) = [] ->
  (forall k, exists c',
      steps (Click :: Settle 0 (FetchFulfilled res) ::
               delivery 0 (take k chunks)) c = Some c' /\
      last (bubbles (render (ui c'))) =
        Some {| key := length (messages (ui c)) + 1; side := bot;
                content := TypingIndicator |}) /\
  (exists c',
      steps (Click :: Settle 0 (FetchFulfilled res) ::
               delivery 0 chunks ++ [Settle 0 (ReadFulfilled Done)]) c =
        Some c' /\
      trailing c' = Some {| sender := bot; text := [] |} /\
      last (bubbles (render (ui c'))) =
        Some {| key := length (messages (ui c)) + 1; side := bot;
                content := Nothing |}).
Proof.
  intros Hr Hok Hct Hb Hempty. split.
  - intros k. eexists. split; [by apply streaming_prefix |].
    lazymatch goal with
    | |- last (bubbles (render ?st)) = _ =>
        rewrite (last_bubble st
                   (messages (ui c) ++
                      [ {| sender := user; text := trim (input (ui c)) |} ])
                   _ eq_refl)
    end.
    rewrite decoded_take, concat_nil_take by done.
    unfold bubble. simpl. rewrite !length_app. simpl.
    replace (length (messages (ui c)) + 1 + 1 - 1)
      with (length (messages (ui c)) + 1) by lia.
    by rewrite Nat.eqb_refl.
  - eexists. split.
    + change (?a :: ?b :: ?l ++ ?r) with ((a :: b :: l) ++ r).
      rewrite steps_app, streaming_prefix by done. reflexivity.
    + split; [unfold trailing; simpl; by rewrite last_snoc, Hempty |].
      lazymatch goal with
      | |- last (bubbles (render ?st)) = _ =>
          rewrite (last_bubble st
                     (messages (ui c) ++
                        [ {| sender := user; text := trim (input (ui c)) |} ])
                     {| sender := bot; text := [] |})
            by (simpl; by rewrite Hempty)
      end.
      unfold bubble. simpl. by rewrite length_app.
Qed.

(** X10.  In a reachable session the controls follow the state: the
    button is enabled exactly when the guard of [sendMessage] would let a
    click through, and disabled exactly when a click would change
    nothing; the input is disabled, and the button reads "...", exactly
    while a call is in flight. *)
Theorem controls_follow_state c :
  reachable c ->
  (button_disabled (render (ui c)) = false <-> accepts c) /\
  (button_disabled (render (ui c)) = true <-> step Click c = Some c) /\
  (input_disabled (render (ui c)) = true <-> pending c <> []) /\
  (button_label (render (ui c)) = lit "..." <-> pending c <> []) /\
  (button_label (render (ui c)) = lit "Send" <-> pending c = []).
Proof.
  intros Hreach.
  assert (Hgate : button_disabled (render (ui c)) = false <-> accepts c).
  { unfold accepts. simpl.
    destruct (loading (ui c)), (truthy (trim (input (ui c)))); simpl;
      split; (done || by intros [? ?]). }
  assert (Hflight : loading (ui c) = true <-> pending c <> []).
  { destruct (reachable_consistent c Hreach)
      as [(Hp & Hl & _) | (pre & t & txt & Hp & Hl & _)];
      rewrite Hp, Hl; by split. }
  split_and!; [done | | done | |].
  - split.
    + intros Hd. unfold step, handler, sendMessage. simpl in Hd.
      replace (negb (truthy (trim (input (ui c)))) || loading (ui c))
        with true
        by (destruct (loading (ui c)), (truthy (trim (input (ui c)))); done).
      simpl. rewrite app_nil_r. by destruct c.
    + intros Hstep. apply not_false_iff_true. intros Hd.
      apply Hgate in Hd. rewrite step_click_accepts in Hstep by done.
      injection Hstep as Hc. apply (f_equal (fun c => length (network c))) in Hc.
      simpl in Hc. rewrite length_app in Hc. simpl in Hc. lia.
  - simpl.
    destruct (reachable_consistent c Hreach)
      as [(Hp & Hl & _) | (pre & t & txt & Hp & Hl & _)];
      rewrite Hp, Hl; split; (done || discriminate).
  - simpl.
    destruct (reachable_consistent c Hreach)
      as [(Hp & Hl & _) | (pre & t & txt & Hp & Hl & _)];
      rewrite Hp, Hl; split; (done || discriminate).
Qed.

Lemma messages_length_steps es : forall c c',
  reachable c -> steps es c = Some c' ->
  length (messages (ui c)) <= length (messages (ui c')).
Proof.
  induction es as [| e es IH]; intros c c' Hreach Hsteps; simpl in Hsteps.
  - injection Hsteps as <-. lia.
  - destruct (step e c) as [c1 |] eqn:Hstep; simpl in Hsteps; [| done].
    etrans; [| eapply IH; [by eapply reachable_step | done]].
    destruct (step_kinds e c c1 (reachable_consistent c Hreach) Hstep)
      as [(-> & _)
         | [(_ & _ & _ & ->)
         | [(t & t' & pre & txt & txt' & _ & _ & -> & -> & _)
         | (t & pre & txt & txt' & _ & _ & -> & -> & _)]]];
      simpl; rewrite ?length_app; simpl; lia.
Qed.

(** X11.  In a reachable session the placeholder paragraph is on display
    exactly as long as no request has been sent, and once it is gone it
    does not come back. *)
Theorem placeholder_until_first_request c :
  reachable c ->
  (placeholder (render (ui c)) = true <-> network c = []) /\
  (placeholder (render (ui c)) = true <-> bubbles (render (ui c)) = []) /\
  forall es c',
    steps es c = Some c' ->
    placeholder (render (ui c)) = false ->
    placeholder (render (ui c')) = false.
Proof.
  intros Hreach.
  pose proof (transcript_length _ _ (reachable_transcript c Hreach)) as Hlen.
  simpl. split_and!.
  - rewrite Nat.eqb_eq, Hlen. destruct (network c); simpl; split; (done || lia).
  - rewrite Nat.eqb_eq. rewrite <- (length_imap (bubble (ui c))).
    by rewrite length_zero_iff_nil.
  - intros es c' Hsteps Hshown.
    pose proof (messages_length_steps es c c' Hreach Hsteps) as Hle.
    apply Nat.eqb_neq in Hshown. apply Nat.eqb_neq. lia.
Qed.

(** ** Sessions driven through the page *)

Lemma ui_reachable_reachable c : ui_reachable c -> reachable c.
Proof.
  induction 1 as [| e c c' _ IH _ Hstep];
    [constructor | by eapply reachable_step].
Qed.

(** The input is disabled while [loading] is on, so it stays as the
    accepted submission left it: empty. *)
Lemma ui_reachable_input c :
  ui_reachable c -> loading (ui c) = true -> input (ui c) = [].
Proof.
  induction 1 as [| e c c' Hui IH Hoff Hstep]; [done |].
  destruct (step_kinds e c c'
              (reachable_consistent c (ui_reachable_reachable c Hui)) Hstep)
    as [(_ & Hl & _ & _ & _ & _ & [Hi | [q ->]])
       | [(_ & _ & _ & ->)
       | [(t & t' & pre & txt & txt' & _ & _ & _ & _ & Hl & _ & _ & Hi & _)
       | (t & pre & txt & txt' & _ & _ & _ & _ & _ & Hl & _)]]].
  - rewrite Hl, Hi. exact IH.
  - simpl in Hoff. rewrite Hl. intros Hl'. rewrite Hl' in Hoff. done.
  - done.
  - intros _. rewrite Hi. by apply IH.
  - congruence.
Qed.

(** X12.  In a session driven through the page (a disabled control gives
    no event) the input is empty for as long as an exchange lasts.  So
    when the exchange is over the input is empty and enabled and the
    button is disabled until something is typed; and every click the page
    lets through is accepted and sends its request. *)
Theorem page_driven_sessions c :
  ui_reachable c ->
  reachable c /\
  (loading (ui c) = true -> input (ui c) = []) /\
  (forall c',
      offered (ui c) Click = true -> step Click c = Some c' ->
      pending c' = [AwaitFetch] /\
      network c' = network c ++ [rag_request (trim (input (ui c)))]) /\
  (forall i s c',
      step (Settle i s) c = Some c' ->
      input (ui c') = [] /\
      (pending c' = [] ->
       input_disabled (render (ui c')) = false /\
       button_disabled (render (ui c')) = true)).
Proof.
  intros Hui. pose proof (ui_reachable_reachable c Hui) as Hreach.
  pose proof (reachable_consistent c Hreach) as Hc.
  split; [done |]. split; [by apply ui_reachable_input |]. split.
  - intros c' Hoff Hstep. simpl in Hoff.
    destruct (loading (ui c)) eqn:Hl; [done |].
    destruct (truthy (trim (input (ui c)))) eqn:Ht; [| done].
    destruct Hc as [(Hp & _) | (pre & t & txt & _ & Hl' & _)]; [| congruence].
    rewrite step_click_ready in Hstep by done. by injection Hstep as <-.
  - intros i s c' Hstep.
    assert (Hui' : ui_reachable c')
      by (by apply (ui_reachable_step (Settle i s) c c')).
    assert (Hl : loading (ui c) = true).
    { unfold step in Hstep.
      destruct (handler (Settle i s) c) as [[acts p] |] eqn:Hh; [| done].
      by destruct (settle_script c i s acts p Hc Hh) as (Hl & _). }
    assert (Hi : input (ui c') = []).
    { destruct (step_kinds _ c c' Hc Hstep)
        as [(_ & _ & _ & _ & _ & _ & [Hi | [q [=]]])
           | [(_ & _ & [[=] | [=]] & _)
           | [(t & t' & pre & txt & txt' & _ & _ & _ & _ & _ & _ & _ & Hi & _)
           | (t & pre & txt & txt' & _ & _ & _ & _ & _ & _ & _ & Hi & _)]]];
        rewrite Hi; by apply ui_reachable_input. }
    split; [done |]. intros Hp. simpl. rewrite Hi.
    destruct (reachable_consistent c' (ui_reachable_reachable c' Hui'))
      as [(_ & Hl' & _) | (pre & t & txt & Hp' & _)]; [| congruence].
    by rewrite Hl'.
Qed.

(** ** The scroll effect *)

Lemma run_without_setMessages acts : forall c,
  existsb is_setMessages acts = false ->
  messages (ui (run acts c)) = messages (ui c).
Proof.
  induction acts as [| a acts IH]; intros c; simpl; [done |].
  intros [Ha Hacts]%orb_false_iff.
  change (messages (ui (run acts (perform a c))) = messages (ui c)).
  rewrite IH by done. by destruct a.
Qed.

(** X13.  The effect that scrolls the chat to the bottom runs after every
    event that changes the message list.  It runs exactly after an
    accepted submission, a chunk read, the JSON body and a failure; it
    does not run when the user types, when a submission is ignored, when
    the response head arrives or when the stream ends. *)
Theorem scroll_follows_messages e c c' :
  step e c = Some c' ->
  (messages (ui c') <> messages (ui c) -> scrolls e c = true) /\
  (scrolls e c = true <->
   ((e = Click \/ e = Enter) /\ accepts c) \/
   (exists i s t,
       e = Settle i s /\ pending c !! i = Some t /\
       (failure t s \/ (exists value, s = ReadFulfilled (Chunk value)) \/
        exists data, s = JsonFulfilled data))).
Proof.
  intros Hstep. unfold step in Hstep. unfold scrolls.
  destruct (handler e c) as [[acts p] |] eqn:Hh; simpl in Hstep; [| done].
  injection Hstep as <-. split.
  - intros Hchanged. apply not_false_iff_true. intros Hno.
    apply Hchanged. simpl. by apply run_without_setMessages.
  - destruct e as [q | | | i s].
    + injection Hh as <- <-. simpl. split; [done |].
      intros [[[[=] | [=]] _] | (i & s & t & [=] & _)].
    + apply handler_submit in Hh as [(-> & _ & Hrej) | (Ht & Hl & -> & _)];
        [| | by left].
      * simpl. split; [done |].
        intros [[_ [Hl Ht]] | (i & s & t & [=] & _)].
        destruct Hrej; congruence.
      * simpl. split; [| done]. intros _. left. by repeat split; [left |..].
    + apply handler_submit in Hh as [(-> & _ & Hrej) | (Ht & Hl & -> & _)];
        [| | by right].
      * simpl. split; [done |].
        intros [[_ [Hl Ht]] | (i & s & t & [=] & _)].
        destruct Hrej; congruence.
      * simpl. split; [| done]. intros _. left. by repeat split; [right |..].
    + apply handler_settle in Hh as (t & t' & Hi & Hr & _).
      assert (Hiff : existsb is_setMessages acts = true <->
                     failure t s \/
                     (exists value, s = ReadFulfilled (Chunk value)) \/
                     exists data, s = JsonFulfilled data).
      { assert (Hnot : acts <> [] ->
                       (forall err, acts <> catch_block err ++ finally_block) ->
                       ~ failure t s).
        { intros _ Hne [err Hf]%failure_iff_catch. rewrite Hf in Hr.
          injection Hr as <- _. by apply (Hne err). }
        assert (Hnot' : acts = [] -> ~ failure t s).
        { intros -> [err Hf]%failure_iff_catch. rewrite Hf in Hr.
          discriminate Hr. }
        pose proof Hr as Hcase. apply resume_cases in Hcase
          as [(err & -> & ->) | [(-> & -> & _) | [(d & acc & v & -> & -> & _)
             | [(d & acc & -> & -> & _) | (m & -> & -> & _)]]]].
        - split; [| done]. intros _. left. apply failure_iff_catch. eauto.
        - split; [done |]. intros [Hf | [[v ->] | [data ->]]];
            [by apply Hnot' in Hf | done | done].
        - split; [| done]. intros _. right. left.
          destruct s as [res | [value |] | data |]; simpl in Hr;
            try discriminate; eauto.
        - split; [done |]. intros [Hf | [[v ->] | [data ->]]].
          + by apply Hnot in Hf.
          + simpl in Hr. destruct (decode d v). discriminate Hr.
          + done.
        - split; [| done]. intros _. right. right.
          destruct s as [res | r | data |]; simpl in Hr;
            try discriminate; eauto. }
      rewrite Hiff. split.
      * intros H. right. by exists i, s, t.
      * intros [[[[=] | [=]] _] | (i0 & s0 & t0 & [= <- <-] & Hi' & H)].
        rewrite Hi in Hi'. by injection Hi' as <-.
Qed.

End Controller.

(** ** The properties at sample sessions *)

(** The session reached from [initial] by the events [es] is reachable. *)
Ltac reached_by es :=
  lazymatch goal with
  | |- reachable ?c /\ _ =>
      assert (Hc : reachable c)
        by (eapply (steps_reachable es initial);
            [apply reachable_initial | reflexivity])
  end.

(** The chunks "Hel" and "lo" yield "Hello". *)
Lemma streaming_hello :
  ready (D:=unit) typed_hi /\
  exists c',
    steps [ Click; Settle 0 (FetchFulfilled plain_200);
            Settle 0 (ReadFulfilled (Chunk (bytes_of "Hel")));
            Settle 0 (ReadFulfilled (Chunk (bytes_of "lo")));
            Settle 0 (ReadFulfilled Done) ] typed_hi = Some c' /\
    trailing c' = Some {| sender := bot; text := lit "Hello" |} /\
    isStreaming (ui c') = false /\ loading (ui c') = false /\
    pending c' = [].
Proof.
  assert (Hr : ready (D:=unit) typed_hi) by (by repeat split).
  split; [exact Hr |].
  exact (proj2 (streaming_text_is_concatenation
                  typed_hi plain_200 hel_lo Hr eq_refl eq_refl eq_refl)).
Defined.

(** After "Hel" alone the trailing text is "Hel". *)
Example streaming_hel :
  exists c' : Config (D:=unit),
    steps [ Click; Settle 0 (FetchFulfilled plain_200);
            Settle 0 (ReadFulfilled (Chunk (bytes_of "Hel"))) ] typed_hi =
    Some c' /\
    trailing c' = Some {| sender := bot; text := lit "Hel" |} /\
    isStreaming (ui c') = true /\ loading (ui c') = true.
Proof. eexists. split; [reflexivity |]. by repeat split. Qed.

(** The body [{ answer: "X" }] yields "X". *)
Lemma json_answer_X :
  ready (D:=unit) typed_hi /\
  as_contract (JObject [(lit "answer", JString (lit "X"))]) =
    Some {| answer := Some (lit "X") |} /\
  exists c',
    steps [ Click; Settle 0 (FetchFulfilled json_200);
            Settle 0 (JsonFulfilled {| answer := Some (lit "X") |}) ]
          typed_hi = Some c' /\
    trailing c' = Some {| sender := bot; text := lit "X" |}.
Proof.
  assert (Hr : ready (D:=unit) typed_hi) by (by repeat split).
  split; [exact Hr |]. split; [reflexivity |].
  destruct (json_answer_or_fallback typed_hi json_200
              (JObject [(lit "answer", JString (lit "X"))])
              {| answer := Some (lit "X") |} Hr eq_refl eq_refl eq_refl
              eq_refl)
    as (c' & Hsteps & Hanswer & _).
  exists c'. split; [exact Hsteps |].
  apply Hanswer; [reflexivity | discriminate].
Defined.

(** The body [{}] yields the fallback string. *)
Example json_answer_absent :
  exists c' : Config (D:=unit),
    steps [ Click; Settle 0 (FetchFulfilled json_200);
            Settle 0 (JsonFulfilled {| answer := None |}) ] typed_hi =
    Some c' /\
    trailing c' = Some {| sender := bot; text := fallback |}.
Proof. eexists. split; reflexivity. Qed.

(** How parsed bodies read as [data.answer || d]: the bodies [{}], [[]],
    ["text"] and [7] have no answer; the answers [null], [false], zero
    and the empty string are falsy; of two answers the later counts; the
    body [null] and the answers [7], [true] and [[]] are left out. *)
Example parsed_bodies :
  as_contract (JObject []) = Some {| answer := None |} /\
  as_contract (JArray []) = Some {| answer := None |} /\
  as_contract (JString (lit "text")) = Some {| answer := None |} /\
  as_contract (JNumber (Finite false 7 0)) = Some {| answer := None |} /\
  as_contract (JObject [(lit "answer", JNull)]) = Some {| answer := None |} /\
  as_contract (JObject [(lit "answer", JBool false)]) =
    Some {| answer := None |} /\
  as_contract (JObject [(lit "answer", JNumber (Zero true))]) =
    Some {| answer := None |} /\
  as_contract (JObject [(lit "answer", JString [])]) =
    Some {| answer := Some [] |} /\
  as_contract (JObject [(lit "answer", JString (lit "old"));
                        (lit "other", JNull);
                        (lit "answer", JString (lit "new"))]) =
    Some {| answer := Some (lit "new") |} /\
  as_contract JNull = None /\
  as_contract (JObject [(lit "answer", JNumber (Finite false 7 0))]) = None /\
  as_contract (JObject [(lit "answer", JBool true)]) = None /\
  as_contract (JObject [(lit "answer", JArray [])]) = None.
Proof. by repeat split. Qed.

(** C2 as stated fails in two ways.  The body [{ answer: "" }] provides
    the field, and the text is set to the fallback string, not to the
    field.  And a content type that contains "application/json" and also
    "text/plain" is handled as a stream: the body is never parsed (no
    JSON settlement can occur) and its chunks are shown as they come. *)
Lemma json_provided_answer_counterexample :
  (ok json_200 = true /\
   opt_includes (contentType json_200) (lit "application/json") = true /\
   as_contract (JObject [(lit "answer", JString [])]) =
     Some {| answer := Some [] |} /\
   answer {| answer := Some [] |} <> None /\
   exists c' : Config (D:=unit),
     steps [ Click; Settle 0 (FetchFulfilled json_200);
             Settle 0 (JsonFulfilled {| answer := Some [] |}) ] typed_hi =
     Some c' /\
     trailing c' = Some {| sender := bot; text := fallback |} /\
     text <$> trailing c' <> answer {| answer := Some [] |}) /\
  (ok both_200 = true /\
   opt_includes (contentType both_200) (lit "application/json") = true /\
   steps (D:=unit)
         [ Click; Settle 0 (FetchFulfilled both_200);
           Settle 0 (JsonFulfilled {| answer := Some (lit "X") |}) ]
         typed_hi = None /\
   exists c' : Config (D:=unit),
     steps (Click :: Settle 0 (FetchFulfilled both_200) ::
              delivery 0 hel_lo ++ [Settle 0 (ReadFulfilled Done)])
           typed_hi = Some c' /\
     trailing c' = Some {| sender := bot; text := lit "Hello" |}).
Proof.
  split.
  - split; [reflexivity |]. split; [reflexivity |]. split; [reflexivity |].
    split; [discriminate |].
    eexists. split; [reflexivity |]. split; [reflexivity | discriminate].
  - split; [reflexivity |]. split; [reflexivity |]. split; [reflexivity |].
    eexists. split; reflexivity.
Qed.

(** A 500 status yields the apology, and both flags are off afterwards. *)
Lemma failure_status_500 :
  failure (D:=unit) AwaitFetch (FetchFulfilled error_500) /\
  exists c : Config (D:=unit),
    steps [Typing (lit "  hi "); Click] initial = Some c /\
    reachable c /\ pending c !! 0 = Some AwaitFetch /\
    exists c',
      step (Settle 0 (FetchFulfilled error_500)) c = Some c' /\
      trailing c' = Some {| sender := bot; text := apology |} /\
      isStreaming (ui c') = false /\ loading (ui c') = false.
Proof.
  assert (Hf : failure (D:=unit) AwaitFetch (FetchFulfilled error_500))
    by (by apply failure_status).
  split; [exact Hf |]. eexists. split; [reflexivity |].
  reached_by [Typing (lit "  hi "); Click].
  split; [exact Hc |]. split; [reflexivity |].
  destruct (failure_shows_apology _ 0 _ _ Hc eq_refl Hf)
    as (c' & pre & m & _ & Hstep & Hui & Htrailing & Hstreaming & _).
  exists c'. split; [exact Hstep |]. split; [exact Htrailing |].
  split; [exact Hstreaming |]. by rewrite Hui.
Defined.

(** An unknown content type and a rejected request end in the same state
    as the 500 status. *)
Example failure_same_outcome :
  exists c' : Config (D:=unit),
    ui <$> steps [Click; Settle 0 (FetchFulfilled error_500)] typed_hi =
      Some (ui c') /\
    ui <$> steps [Click; Settle 0 (FetchFulfilled html_200)] typed_hi =
      Some (ui c') /\
    ui <$> steps [Click; Settle 0 Rejected] typed_hi = Some (ui c') /\
    trailing c' = Some {| sender := bot; text := apology |} /\
    console <$> steps [Click; Settle 0 (FetchFulfilled error_500)] typed_hi =
      Some [HttpError 500] /\
    console <$> steps (D:=unit) [Click; Settle 0 (FetchFulfilled html_200)]
                      typed_hi =
      Some [UnexpectedContentType] /\
    console <$> steps (D:=unit) [Click; Settle 0 Rejected] typed_hi =
      Some [Rejection].
Proof.
  destruct (steps (D:=unit) [Click; Settle 0 Rejected] typed_hi)
    as [c' |] eqn:E; [| discriminate E].
  exists c'. vm_compute in E. injection E as <-. by repeat split.
Qed.

(** A rejection in the middle of the stream replaces the text read so far
    by the apology. *)
Example failure_mid_stream :
  exists c' : Config (D:=unit),
    steps [ Click; Settle 0 (FetchFulfilled plain_200);
            Settle 0 (ReadFulfilled (Chunk (bytes_of "Hel")));
            Settle 0 Rejected ] typed_hi = Some c' /\
    trailing c' = Some {| sender := bot; text := apology |} /\
    isStreaming (ui c') = false /\ loading (ui c') = false.
Proof. eexists. split; [reflexivity |]. by repeat split. Qed.

(** A click on a blank input changes nothing. *)
Lemma blank_click_is_noop :
  blank (input (ui (typed_blank (D:=unit)))) = true /\
  sendMessage (D:=unit) (input (ui (typed_blank (D:=unit))))
              (loading (ui (typed_blank (D:=unit)))) = ([], None) /\
  step (D:=unit) Click typed_blank = Some typed_blank /\
  step (D:=unit) Enter typed_blank = Some typed_blank.
Proof.
  split; [reflexivity |].
  apply (rejected_submission_is_noop (D:=unit) typed_blank).
  left. reflexivity.
Defined.

(** A click while a call is in flight changes nothing, whatever has been
    typed meanwhile. *)
Example loading_click_is_noop :
  exists c : Config (D:=unit),
    steps [Click; Typing (lit "more")] typed_hi = Some c /\
    loading (ui c) = true /\ blank (input (ui c)) = false /\
    step Click c = Some c /\ step Enter c = Some c.
Proof. eexists. split; [reflexivity |]. by repeat split. Qed.

(** The accepted submission of "  hi ": two messages, then one request. *)
Lemma accepted_hi_order :
  accepts (D:=unit) typed_hi /\
  exists c',
    step Click typed_hi = Some c' /\
    messages (ui c') = [ {| sender := user; text := lit "hi" |};
                         {| sender := bot; text := [] |} ] /\
    network c' = [rag_request (lit "hi")].
Proof.
  assert (Hr : accepts (D:=unit) typed_hi) by (by split).
  split; [exact Hr |].
  destruct (accepted_submission_order typed_hi Hr)
    as (_ & _ & Hbefore & _ & _ & _ &
        c' & Hstep & _ & Hmessages & Hnetwork & _).
  exists c'. split; [exact Hstep |]. split; [| exact Hnetwork].
  rewrite Hmessages. exact Hbefore.
Defined.

(** The input "  hi " is sent as "hi", and the input is cleared. *)
Lemma accepted_hi_trims :
  accepts (D:=unit) typed_hi /\
  input (ui (typed_hi (D:=unit))) = lit "  hi " /\
  exists c',
    step Click typed_hi = Some c' /\ input (ui c') = [] /\
    network c' = [rag_request (lit "hi")] /\
    query (body (rag_request (lit "hi"))) = lit "hi".
Proof.
  assert (Hr : accepts (D:=unit) typed_hi) by (by split).
  split; [exact Hr |]. split; [reflexivity |].
  destruct (accepted_submission_trims typed_hi Hr)
    as (_ & _ & _ & Hquery & c' & Hstep & Hinput & Hnetwork).
  exists c'. split; [exact Hstep |]. split; [exact Hinput |].
  split; [exact Hnetwork | exact Hquery].
Defined.

(** A session that has read "Hel" is reachable, has [loading] on, and
    accepts a new submission once the stream has ended. *)
Lemma loading_while_reading :
  exists c c' : Config (D:=unit),
    steps hi_then_hel initial = Some c /\
    reachable c /\ loading (ui c) = true /\ pending c <> [] /\
    step (Settle 0 (ReadFulfilled Done)) c = Some c' /\
    loading (ui c') = false /\
    exists c'',
      steps [Typing (lit "again"); Click] c' = Some c'' /\
      pending c'' = [AwaitFetch] /\ loading (ui c'') = true.
Proof.
  eexists. eexists. split; [reflexivity |].
  reached_by hi_then_hel.
  split; [exact Hc |].
  destruct (loading_spans_exchange _ Hc) as (Hloading & _ & _ & Hafter).
  split; [reflexivity |]. split; [by apply Hloading |].
  split; [reflexivity |].
  destruct (Hafter 0 (ReadFulfilled Done) _ eq_refl eq_refl) as [Hoff Hnext].
  split; [exact Hoff |].
  destruct (Hnext (lit "again") eq_refl) as (c'' & Hsteps & Hp & Hl & _).
  by exists c''.
Defined.

(** In that session the one message in flight is the last one. *)
Lemma one_in_flight_while_reading :
  exists c : Config (D:=unit),
    steps hi_then_hel initial = Some c /\
    reachable c /\ isStreaming (ui c) = true /\
    length (pending c) <= 1 /\
    exists pre txt,
      messages (ui c) = pre ++ [ {| sender := bot; text := txt |} ].
Proof.
  eexists. split; [reflexivity |].
  reached_by hi_then_hel.
  split; [exact Hc |]. split; [reflexivity |].
  destruct (one_in_flight_message _ Hc) as [Hone Hlast].
  split; [exact Hone |].
  destruct (Hlast eq_refl) as (pre & txt & Hm & _).
  by exists pre, txt.
Defined.

(** In that session [isStreaming] and [loading] are both on, and they
    stay ordered while the end of the stream is handled. *)
Lemma streaming_implies_loading_while_reading :
  exists c : Config (D:=unit),
    steps hi_then_hel initial = Some c /\
    reachable c /\ isStreaming (ui c) = true /\ loading (ui c) = true /\
    Forall (fun c' => isStreaming (ui c') = true -> loading (ui c') = true)
           (during [setIsStreaming false; setLoading false] c).
Proof.
  eexists. split; [reflexivity |].
  reached_by hi_then_hel.
  split; [exact Hc |]. split; [reflexivity |].
  destruct (streaming_implies_loading _ Hc) as (Himp & Hduring & _).
  split; [by apply Himp |].
  exact (Hduring (Settle 0 (ReadFulfilled Done)) _ _ eq_refl).
Defined.

(** The two messages of a submission are appended, and the reply rewrites
    the last one only. *)
Example append_then_rewrite :
  exists c1 c2 : Config (D:=unit),
    step Click typed_hi = Some c1 /\
    steps [ Settle 0 (FetchFulfilled json_200);
            Settle 0 (JsonFulfilled {| answer := Some (lit "X") |}) ] c1 =
      Some c2 /\
    messages (ui c1) = [ {| sender := user; text := lit "hi" |};
                         {| sender := bot; text := [] |} ] /\
    messages (ui c2) = [ {| sender := user; text := lit "hi" |};
                         {| sender := bot; text := lit "X" |} ].
Proof. eexists. eexists. split; [reflexivity |]. by repeat split. Qed.

(** The JSON reply to "hi" rewrites the last of the two messages and
    nothing else. *)
Lemma rewrite_last_at_json :
  exists (c : Config (D:=unit)) acts,
    step Click typed_hi = Some c /\
    resume (D:=unit) AwaitJson
           (JsonFulfilled {| answer := Some (lit "X") |}) =
      Some (acts, None) /\
    rewrites_last_only (messages (ui c)) (messages (ui (run acts c))) /\
    messages (ui (run acts c)) =
      [ {| sender := user; text := lit "hi" |};
        {| sender := bot; text := lit "X" |} ].
Proof.
  eexists. eexists. split; [reflexivity |]. split; [reflexivity |].
  split; [| reflexivity].
  match goal with
  | |- rewrites_last_only (messages (ui ?c)) _ =>
      destruct (messages_append_only_but_last c) as [Hresume _]
  end.
  destruct (Hresume AwaitJson (JsonFulfilled {| answer := Some (lit "X") |})
                    _ None eq_refl) as (_ & _ & Hrun).
  exact Hrun.
Defined.

(** ** The further properties at sample sessions *)

(** After "  hi " has been submitted and "Hel" read: two messages for the
    one request, the first the user's "hi". *)
Lemma transcript_after_hi :
  exists c : Config (D:=unit),
    steps hi_then_hel initial = Some c /\
    reachable c /\
    length (messages (ui c)) = 2 * length (network c) /\
    messages (ui c) !! 0 = Some {| sender := user; text := lit "hi" |}.
Proof.
  eexists. split; [reflexivity |]. reached_by hi_then_hel.
  split; [exact Hc |].
  destruct (messages_follow_requests _ Hc) as (_ & Hlen & Hlookup).
  split; [exact Hlen |].
  exact (proj1 (Hlookup 0 (rag_request (lit "hi")) eq_refl)).
Defined.

Lemma request_after_hi :
  exists c : Config (D:=unit),
    steps hi_then_hel initial = Some c /\
    reachable c /\
    Forall (fun req => req = rag_request (lit "hi")) (network c) /\
    Forall (fun req => trim (query (body req)) = query (body req))
           (network c).
Proof.
  eexists. split; [reflexivity |]. reached_by hi_then_hel.
  split; [exact Hc |]. split; [by repeat constructor |].
  eapply Forall_impl; [exact (requests_carry_trimmed_queries _ Hc) |].
  by intros req (_ & _ & _ & _ & _ & Htrim & _).
Defined.

Lemma one_request_after_hi :
  exists c : Config (D:=unit),
    steps hi_then_hel initial = Some c /\
    reachable c /\
    length (console c) + length (pending c) <= length (network c) /\
    length (network c) = 1.
Proof.
  eexists. split; [reflexivity |]. reached_by hi_then_hel.
  split; [exact Hc |].
  split; [exact (proj1 (one_request_per_submission _ Hc)) | reflexivity].
Defined.

(** The reply "X" to "hi" is still there after a second exchange has
    failed. *)
Lemma first_reply_stays :
  exists c c' : Config (D:=unit),
    steps [ Typing (lit "  hi "); Click; Settle 0 (FetchFulfilled json_200);
            Settle 0 (JsonFulfilled {| answer := Some (lit "X") |}) ]
          initial = Some c /\
    reachable c /\
    steps [Typing (lit "again"); Click; Settle 0 Rejected] c = Some c' /\
    settled (ui c) = [ {| sender := user; text := lit "hi" |};
                       {| sender := bot; text := lit "X" |} ] /\
    messages (ui c') !! 1 = Some {| sender := bot; text := lit "X" |} /\
    length (messages (ui c')) = 4.
Proof.
  eexists. eexists. split; [reflexivity |].
  reached_by [ Typing (lit "  hi "); Click; Settle 0 (FetchFulfilled json_200);
               Settle 0 (JsonFulfilled {| answer := Some (lit "X") |}) ].
  split; [exact Hc |]. split; [reflexivity |]. split; [reflexivity |].
  split; [| reflexivity].
  exact (proj2 (settled_messages_stay
                  [Typing (lit "again"); Click; Settle 0 Rejected]
                  _ _ Hc eq_refl)
               1 {| sender := bot; text := lit "X" |} eq_refl).
Defined.

(** With "Hel" on display, the chunk "lo" makes it "Hello". *)
Lemma hel_grows_to_hello :
  exists c : Config (D:=unit),
    steps hi_then_hel initial = Some c /\
    reachable c /\
    pending c !! 0 = Some (AwaitRead tt (lit "Hel")) /\
    trailing c = Some {| sender := bot; text := lit "Hel" |} /\
    exists c',
      step (Settle 0 (ReadFulfilled (Chunk (bytes_of "lo")))) c = Some c' /\
      trailing c' = Some {| sender := bot; text := lit "Hello" |}.
Proof.
  eexists. split; [reflexivity |]. reached_by hi_then_hel.
  split; [exact Hc |]. split; [reflexivity |].
  destruct (streamed_text_only_grows _ 0 tt (lit "Hel") Hc eq_refl)
    as (Hshown & Hchunk & _).
  split; [exact Hshown |].
  destruct (Hchunk (bytes_of "lo")) as (c' & Hstep & Htrailing & _).
  exists c'. split; [exact Hstep | exact Htrailing].
Defined.

Lemma ascii_decoder_streams : streams (D:=unit).
Proof.
  split; [by intros [] |]. intros [] a b. simpl.
  unfold ascii_decode. by rewrite map_app.
Qed.

(** "Hel", "lo" and "Hello" in one piece end in the same session. *)
Lemma hel_lo_is_hello :
  streams (D:=unit) /\ ready (D:=unit) typed_hi /\
  concat hel_lo = concat [bytes_of "Hello"] /\
  steps (D:=unit)
        (Click :: Settle 0 (FetchFulfilled plain_200) ::
           delivery 0 hel_lo ++ [Settle 0 (ReadFulfilled Done)]) typed_hi =
  steps (Click :: Settle 0 (FetchFulfilled plain_200) ::
           delivery 0 [bytes_of "Hello"] ++ [Settle 0 (ReadFulfilled Done)])
        typed_hi.
Proof.
  assert (Hr : ready (D:=unit) typed_hi) by (by repeat split).
  split; [exact ascii_decoder_streams |]. split; [exact Hr |].
  split; [reflexivity |].
  exact (proj1 (chunking_does_not_matter
                  typed_hi plain_200 hel_lo [bytes_of "Hello"]
                  ascii_decoder_streams Hr eq_refl eq_refl eq_refl eq_refl)).
Defined.

(** Right after the submission the last bubble shows the indicator. *)
Lemma indicator_after_submission :
  exists c : Config (D:=unit),
    steps [Typing (lit "  hi "); Click] initial = Some c /\
    reachable c /\ isStreaming (ui c) = true /\
    trailing c = Some {| sender := bot; text := [] |} /\
    exists i b,
      bubbles (render (ui c)) !! i = Some b /\ content b = TypingIndicator.
Proof.
  eexists. split; [reflexivity |].
  reached_by [Typing (lit "  hi "); Click].
  split; [exact Hc |]. split; [reflexivity |]. split; [reflexivity |].
  exact (proj2 (proj1 (typing_indicator_marks_waiting _ Hc))
               (conj eq_refl eq_refl)).
Defined.


(** A stream of one empty chunk leaves an empty bubble. *)
Lemma empty_chunk_leaves_blank_bubble :
  ready (D:=unit) typed_hi /\
  concat (decoded (D:=unit) newTextDecoder [[]]) = [] /\
  exists c',
    steps [ Click; Settle 0 (FetchFulfilled plain_200);
            Settle 0 (ReadFulfilled (Chunk []));
            Settle 0 (ReadFulfilled Done) ] typed_hi = Some c' /\
    trailing c' = Some {| sender := bot; text := [] |} /\
    last (bubbles (render (ui c'))) =
      Some {| key := 1; side := bot; content := Nothing |}.
Proof.
  assert (Hr : ready (D:=unit) typed_hi) by (by repeat split).
  split; [exact Hr |]. split; [reflexivity |].
  exact (proj2 (empty_stream_leaves_blank_bubble
                  typed_hi plain_200 [[]] Hr eq_refl eq_refl eq_refl
                  eq_refl)).
Defined.

(** With "  hi " typed the button is enabled and reads "Send". *)
Lemma button_enabled_after_typing :
  exists c : Config (D:=unit),
    steps [Typing (lit "  hi ")] initial = Some c /\
    reachable c /\ accepts c /\
    button_disabled (render (ui c)) = false /\
    button_label (render (ui c)) = lit "Send".
Proof.
  eexists. split; [reflexivity |]. reached_by [Typing (lit "  hi ")].
  split; [exact Hc |].
  assert (Ha : accepts (D:=unit) typed_hi) by (by split).
  split; [exact Ha |].
  destruct (controls_follow_state _ Hc) as (Hgate & _ & _ & _ & Hsend).
  split; [by apply Hgate | by apply Hsend].
Defined.

(** The placeholder is there at the start and gone after a submission. *)
Lemma placeholder_at_the_start :
  reachable (D:=unit) initial /\
  placeholder (render (ui (initial (D:=unit)))) = true /\
  exists c : Config (D:=unit),
    steps hi_then_hel initial = Some c /\
    placeholder (render (ui c)) = false.
Proof.
  assert (Hc : reachable (D:=unit) initial) by constructor.
  split; [exact Hc |].
  split; [by apply (proj1 (placeholder_until_first_request _ Hc)) |].
  eexists. split; reflexivity.
Defined.

(** Typing, then the button: the page lets both through, and while the
    request is out the input is empty. *)
Lemma input_empty_while_waiting :
  exists c : Config (D:=unit),
    steps [Typing (lit "  hi "); Click] initial = Some c /\
    ui_reachable c /\ loading (ui c) = true /\ input (ui c) = [].
Proof.
  eexists. split; [reflexivity |].
  lazymatch goal with
  | |- ui_reachable ?c /\ _ =>
      assert (Hc : ui_reachable c)
        by (eapply (ui_reachable_step Click typed_hi);
            [ eapply (ui_reachable_step (Typing (lit "  hi ")) initial);
              [apply ui_reachable_initial | reflexivity | reflexivity]
            | reflexivity | reflexivity ])
  end.
  split; [exact Hc |]. split; [reflexivity |].
  destruct (page_driven_sessions _ Hc) as (_ & Hinput & _).
  by apply Hinput.
Defined.

(** A chunk scrolls the chat; the end of the stream does not. *)
Lemma chunk_scrolls :
  exists c c' : Config (D:=unit),
    steps hi_then_hel initial = Some c /\
    step (Settle 0 (ReadFulfilled (Chunk (bytes_of "lo")))) c = Some c' /\
    messages (ui c') <> messages (ui c) /\
    scrolls (Settle 0 (ReadFulfilled (Chunk (bytes_of "lo")))) c = true /\
    scrolls (Settle 0 (ReadFulfilled Done)) c = false.
Proof.
  eexists. eexists. split; [reflexivity |]. split; [reflexivity |].
  assert (Hchanged : forall a b : list Message,
             a !! 1 <> b !! 1 -> a <> b) by (intros a b H ->; done).
  lazymatch goal with
  | |- ?a <> ?b /\ _ =>
      assert (Hne : a <> b) by (apply Hchanged; discriminate)
  end.
  split; [exact Hne |]. split; [| reflexivity].
  lazymatch goal with
  | |- scrolls ?e ?c = true =>
      exact (proj1 (scroll_follows_messages e c _ eq_refl) Hne)
  end.
Defined.
